(** * questions.py : TF-IDF document and sentence ranking

    A shallow embedding of the scoring core of [questions.py]
    ([compute_idfs], [compute_word_idf], [top_files], [top_sentences],
    [query_term_density]) and the properties its specification states.

    Modelling conventions.
    - Tokens, file names and sentences are [string]s.
    - A Python [set] of tokens is a [gset string]; iterating it visits
      [elements query], some fixed order without repetition.
    - A Python [dict] that is iterated (the corpus, the sentence table,
      the score tables built by the rankers) is an association list in
      insertion order, see [Dict]; a [dict] that is only looked up or
      inserted into (the IDF table) is a [gmap string R].
    - Python's [float] is idealised as a real number: [math.log] is [ln],
      [/] is real division, rounding and the special values inf and nan
      are not modelled.  Integers ([len], [count], [sum] of 0/1) are [nat].
      What depends on how two computed scores compare, the order of a
      ranking and its ties, is stated over an arbitrary number type
      instead, see [Float]: rounding can separate scores that tie as real
      numbers.
    - The parameter [n] of the rankers is a count ([FILE_MATCHES],
      [SENTENCE_MATCHES]) and is a [nat]; the slice [l[:n]] is [take n l].
    - Exceptions are explicit: every function that can raise returns a
      [result]. *)

From Stdlib Require Import Reals Lra Lia Ascii.
From stdpp Require Import gmap strings list fin_maps sorting.

(** ** Exceptions *)

Inductive exn : Set :=
| KeyError
| ZeroDivisionError
| ValueError.

Inductive result (A : Type) : Type :=
| Ok (a : A)
| Raise (e : exn).
Arguments Ok {A} a.
Arguments Raise {A} e.

#[global] Instance result_ret : MRet result := λ A a, Ok a.
#[global] Instance result_bind : MBind result := λ A B f c,
  match c with
  | Ok a => f a
  | Raise e => Raise e
  end.

(** A [for] loop whose body may raise: the state is threaded from left to
    right and the first exception aborts the loop. *)
Fixpoint foldM {A S : Type} (body : S → A → result S) (l : list A) (s : S)
  : result S :=
  match l with
  | [] => Ok s
  | x :: l' => s' ← body s x; foldM body l' s'
  end.

(** A list comprehension whose element expression may raise. *)
Fixpoint mapM {A B : Type} (f : A → result B) (l : list A) : result (list B) :=
  match l with
  | [] => Ok []
  | x :: l' => y ← f x; ys ← mapM f l'; Ok (y :: ys)
  end.

(** ** Insertion-ordered dictionaries *)

Module Dict.
Section dict.
Context {K V : Type} `{EqDecision K}.

(** [d[k]], [None] standing for the missing key. *)
Fixpoint get (k : K) (d : list (K * V)) : option V :=
  match d with
  | [] => None
  | (k', v) :: d' => if decide (k = k') then Some v else get k d'
  end.

(** [d[k] = v]: an existing key keeps its position, a new key goes last. *)
Fixpoint set (k : K) (v : V) (d : list (K * V)) : list (K * V) :=
  match d with
  | [] => [(k, v)]
  | (k', v') :: d' =>
      if decide (k = k') then (k', v) :: d' else (k', v') :: set k v d'
  end.

Definition keys (d : list (K * V)) : list K := d.*1.
Definition values (d : list (K * V)) : list V := d.*2.

(** The association lists that are Python dictionaries: keys are unique. *)
Definition wf (d : list (K * V)) : Prop := NoDup (keys d).
End dict.
End Dict.

(** ** Arithmetic of the source *)

(** [a / b] on two Python integers. *)
Definition py_truediv (a b : nat) : result R :=
  if decide (b = 0) then Raise ZeroDivisionError else Ok (INR a / INR b)%R.

(** [math.log(x)]. *)
Definition math_log (x : R) : result R :=
  if Rlt_dec 0 x then Ok (ln x) else Raise ValueError.

(** [sum(l)] on a list of floats: starts from 0 and adds left to right. *)
Definition py_sum (l : list R) : R := fold_left Rplus l 0%R.

(** [idfs[word]]. *)
Definition idfs_get (idfs : gmap string R) (word : string) : result R :=
  match idfs !! word with
  | Some v => Ok v
  | None => Raise KeyError
  end.

(** ** IDF computation *)

(** [sum([1 if word in document else 0 for document in documents.values()])] *)
Definition num_documents_with_word (word : string)
    (documents : list (string * list string)) : nat :=
  sum_list ((λ document : list string,
               if bool_decide (word ∈ document) then 1 else 0)
            <$> Dict.values documents).

Definition compute_word_idf (word : string)
    (documents : list (string * list string)) : result R :=
  let total_documents := length documents in
  q ← py_truediv total_documents (num_documents_with_word word documents);
  math_log q.

Definition compute_idfs (documents : list (string * list string))
  : result (gmap string R) :=
  foldM (λ idf_dict text,
      foldM (λ (idf_dict : gmap string R) word,
          match idf_dict !! word with
          | None =>
              v ← compute_word_idf word documents;
              Ok (<[word := v]> idf_dict)
          | Some _ => Ok idf_dict
          end) text idf_dict)
    (Dict.values documents) ∅.

(** ** Sorting *)

(** [sorted(items, key=key, reverse=True)].  Python's sort is stable, and
    stays so under [reverse=True]: items whose keys compare equal keep
    their original relative order.  A stable sort is determined by its
    input and the order on keys, so it is the insertion sort that moves
    an item only past items with a strictly greater key. *)
Section sorted_reverse.
Context {A B : Type} (key : A → B) (lt : B → B → Prop).
Context `{∀ x y, Decision (lt x y)}.

Fixpoint insert_reverse (x : A) (l : list A) : list A :=
  match l with
  | [] => [x]
  | y :: l' =>
      if decide (lt (key x) (key y)) then y :: insert_reverse x l'
      else x :: y :: l'
  end.

Definition sorted_reverse (l : list A) : list A :=
  foldr insert_reverse [] l.

(** [a] may stand before [b] in descending order: its key is not the
    smaller one. *)
Definition not_below (a b : A) : Prop := ¬ lt (key a) (key b).
End sorted_reverse.

#[global] Instance Rlt_decision (x y : R) : Decision (x < y)%R := Rlt_dec x y.
#[global] Instance Req_decision : EqDecision R := Req_dec_T.

(** Comparison of the tuples [(x[1][0], x[1][1])]: the first components
    decide unless they are equal. *)
Definition tuple_lt (a b : R * R) : Prop :=
  (a.1 < b.1)%R ∨ (a.1 = b.1 ∧ (a.2 < b.2)%R).

#[global] Instance tuple_lt_decision (a b : R * R) : Decision (tuple_lt a b).
Proof. unfold tuple_lt. apply _. Defined.

(** ** Document ranking *)

(** The first loop of [top_files]: [query_tf[filename][word]] is the
    number of occurrences of [word] in the file.  The inner dictionary is
    created empty, stored under [filename] and then filled in place; the
    model fills it first and stores it at the same position. *)
Definition query_tf (query : gset string)
    (files : list (string * list string))
  : list (string * list (string * nat)) :=
  fold_left (λ query_tf '(filename, document),
      Dict.set filename
        (fold_left (λ word_tf word,
             let tf := length (filter (λ w, w = word) document) in
             Dict.set word tf word_tf)
           (elements query) [])
        query_tf)
    files [].

(** The second loop: [file_tfidf[filename]] is the sum of
    [tf * idfs[word]] over the entries of [query_tf[filename]]. *)
Definition file_tfidf (idfs : gmap string R)
    (query_tf : list (string * list (string * nat)))
  : result (list (string * R)) :=
  foldM (λ file_tfidf '(filename, word_tf),
      terms ← mapM (λ '(word, tf),
                 v ← idfs_get idfs word; Ok (INR tf * v)%R) word_tf;
      Ok (Dict.set filename (py_sum terms) file_tfidf))
    query_tf [].

Definition top_files (query : gset string)
    (files : list (string * list string)) (idfs : gmap string R) (n : nat)
  : result (list string) :=
  file_tfidf ← file_tfidf idfs (query_tf query files);
  let sorted_file_tfidf := (sorted_reverse snd Rlt file_tfidf).*1 in
  Ok (take n sorted_file_tfidf).

(** ** Sentence ranking *)

Definition query_term_density (query : gset string)
    (sentences : list (string * list string)) (sentence : string)
  : result R :=
  match Dict.get sentence sentences with
  | None => Raise KeyError
  | Some sentence_words =>
      let words_in_sentence := length sentence_words in
      let words_in_query :=
        sum_list ((λ _, 1) <$> filter (λ word, word ∈ query) sentence_words) in
      py_truediv words_in_query words_in_sentence
  end.

(** The body of the inner loop of [top_sentences], for one [word] of the
    query: a sentence gets an entry [idf, density] at the first query word
    it contains, and the IDF of every further contained query word is
    added to the first component of that entry, in place. *)
Definition score_word (query : gset string)
    (sentences : list (string * list string)) (idfs : gmap string R)
    (sentence : string) (sentence_words : list string)
    (sentences_mwm : list (string * (R * R))) (word : string)
  : result (list (string * (R * R))) :=
  if bool_decide (word ∈ sentence_words) then
    match Dict.get sentence sentences_mwm with
    | Some (idf, qtd) =>
        v ← idfs_get idfs word;
        Ok (Dict.set sentence ((idf + v)%R, qtd) sentences_mwm)
    | None =>
        v ← idfs_get idfs word;
        qtd ← query_term_density query sentences sentence;
        Ok (Dict.set sentence (v, qtd) sentences_mwm)
    end
  else Ok sentences_mwm.

(** The two nested loops that build [sentences_mwm]. *)
Definition sentences_mwm (query : gset string)
    (sentences : list (string * list string)) (idfs : gmap string R)
  : result (list (string * (R * R))) :=
  foldM (λ sentences_mwm '(sentence, sentence_words),
      foldM (score_word query sentences idfs sentence sentence_words)
        (elements query) sentences_mwm)
    sentences [].

Definition top_sentences (query : gset string)
    (sentences : list (string * list string)) (idfs : gmap string R) (n : nat)
  : result (list string) :=
  sentences_mwm ← sentences_mwm query sentences idfs;
  let sorted_sentences := (sorted_reverse snd tuple_lt sentences_mwm).*1 in
  Ok (take n sorted_sentences).

(** ** Vocabulary of the specification *)

(** A token occurs in the unit set when some unit's token sequence
    contains it. *)
Definition occurs (t : string) (documents : list (string * list string))
  : Prop :=
  ∃ name text, (name, text) ∈ documents ∧ t ∈ text.

(** [d]: the number of units whose token sequence contains the token at
    least once. *)
Definition units_containing (t : string)
    (documents : list (string * list string)) : nat :=
  length (filter (λ unit, t ∈ unit.2) documents).

(** [ln (N / d)]. *)
Definition spec_idf (t : string) (documents : list (string * list string))
  : R :=
  ln (INR (length documents) / INR (units_containing t documents)).

(** The value of a token in an IDF table that has an entry for it. *)
Definition idf_of (idfs : gmap string R) (t : string) : R :=
  default 0%R (idfs !! t).

Definition sum_R (l : list R) : R := foldr Rplus 0%R l.

(** The query tokens contained in a token sequence, each once. *)
Definition contained (query : gset string) (words : list string)
  : list string :=
  filter (λ q, q ∈ words) (elements query).

(** Summed query-term IDF of a sentence. *)
Definition spec_primary (query : gset string) (idfs : gmap string R)
    (words : list string) : R :=
  sum_R (idf_of idfs <$> contained query words).

(** Query term density: tokens of the sentence that are members of the
    query, over all tokens of the sentence. *)
Definition spec_density (query : gset string) (words : list string) : R :=
  (INR (length (filter (λ w, w ∈ query) words)) / INR (length words))%R.

(** TF-IDF score of a document: raw count times IDF, summed over the
    query. *)
Definition spec_tfidf (query : gset string) (idfs : gmap string R)
    (words : list string) : R :=
  sum_R ((λ q, INR (length (filter (λ w, w = q) words)) * idf_of idfs q)%R
         <$> elements query).

(** The table of term frequencies of the query in one document and the
    table of document scores, in corpus order. *)
Definition tf_table (query : gset string) (document : list string)
  : list (string * nat) :=
  (λ q, (q, length (filter (λ w, w = q) document))) <$> elements query.

Definition tfidf_table (query : gset string) (idfs : gmap string R)
    (files : list (string * list string)) : list (string * R) :=
  (λ '(filename, document), (filename, spec_tfidf query idfs document))
  <$> files.

(** The scored set of the sentence ranker: the sentences that contain a
    query token, in table order, each with its two sort keys. *)
Definition scored (query : gset string) (idfs : gmap string R)
    (sentences : list (string * list string)) : list (string * (R * R)) :=
  omap (λ '(sentence, words),
      match contained query words with
      | [] => None
      | _ :: _ =>
          Some (sentence,
                (spec_primary query idfs words, spec_density query words))
      end) sentences.

(** The IDF table has an entry for every query token that some unit
    contains. *)
Definition covers (idfs : gmap string R) (query : gset string)
    (units : list (string * list string)) : Prop :=
  ∀ name words t,
    (name, words) ∈ units → t ∈ query → t ∈ words → is_Some (idfs !! t).

(** ** The rankers over machine numbers *)

(** Which of two scores the machine finds smaller decides the order of a
    ranking, and a float sum of IDF values need not be the float nearest
    to the real sum.  [Float] is the two rankers over an arbitrary number
    type: the operations are those the code applies to Python numbers and
    stay uninterpreted, so that what is proved of the order holds for the
    numbers the code computes. *)
Module Float.

Class Num : Type := {
  num : Type;
  (** an [int] operand of a float operation *)
  of_int : nat → num;
  (** [a + b] and [a * b] on floats *)
  fadd : num → num → num;
  fmul : num → num → num;
  (** the builtin [sum] on a list of floats *)
  fsum : list num → num;
  (** [a / b] on two ints, [b] not 0 *)
  int_div : nat → nat → num;
  (** [a < b] and [a == b] *)
  flt : num → num → Prop;
  feq : num → num → Prop;
  flt_dec :: ∀ a b, Decision (flt a b);
  feq_dec :: ∀ a b, Decision (feq a b);
}.

(** The comparisons of numbers that are no NaN: [<] is a strict weak order
    and [==] holds of the numbers it does not separate. *)
Class NumOrder (N : Num) : Prop := {
  flt_asym : ∀ a b : num, flt a b → ¬ flt b a;
  flt_negtrans : ∀ a b c : num, ¬ flt a b → ¬ flt b c → ¬ flt a c;
  feq_incomparable : ∀ a b : num, feq a b ↔ ¬ flt a b ∧ ¬ flt b a;
}.

Section rankers.
Context {N : Num}.

Definition idfs_get (idfs : gmap string num) (word : string) : result num :=
  match idfs !! word with
  | Some v => Ok v
  | None => Raise KeyError
  end.

Definition py_truediv (a b : nat) : result num :=
  if decide (b = 0) then Raise ZeroDivisionError else Ok (int_div a b).

(** [<] on the tuples [(x[1][0], x[1][1])]: the first pair of components
    that are not [==] decides. *)
Definition tuple_lt (a b : num * num) : Prop :=
  (¬ feq a.1 b.1 ∧ flt a.1 b.1)
  ∨ (feq a.1 b.1 ∧ ¬ feq a.2 b.2 ∧ flt a.2 b.2).

#[global] Instance tuple_lt_dec (a b : num * num) : Decision (tuple_lt a b).
Proof. unfold tuple_lt. apply _. Defined.

Definition file_tfidf (idfs : gmap string num)
    (query_tf : list (string * list (string * nat)))
  : result (list (string * num)) :=
  foldM (λ file_tfidf '(filename, word_tf),
      terms ← mapM (λ '(word, tf),
                 v ← idfs_get idfs word; Ok (fmul (of_int tf) v)) word_tf;
      Ok (Dict.set filename (fsum terms) file_tfidf))
    query_tf [].

Definition top_files (query : gset string)
    (files : list (string * list string)) (idfs : gmap string num) (n : nat)
  : result (list string) :=
  file_tfidf ← file_tfidf idfs (query_tf query files);
  let sorted_file_tfidf := (sorted_reverse snd flt file_tfidf).*1 in
  Ok (take n sorted_file_tfidf).

Definition query_term_density (query : gset string)
    (sentences : list (string * list string)) (sentence : string)
  : result num :=
  match Dict.get sentence sentences with
  | None => Raise KeyError
  | Some sentence_words =>
      let words_in_sentence := length sentence_words in
      let words_in_query :=
        sum_list ((λ _, 1) <$> filter (λ word, word ∈ query) sentence_words) in
      py_truediv words_in_query words_in_sentence
  end.

Definition score_word (query : gset string)
    (sentences : list (string * list string)) (idfs : gmap string num)
    (sentence : string) (sentence_words : list string)
    (sentences_mwm : list (string * (num * num))) (word : string)
  : result (list (string * (num * num))) :=
  if bool_decide (word ∈ sentence_words) then
    match Dict.get sentence sentences_mwm with
    | Some (idf, qtd) =>
        v ← idfs_get idfs word;
        Ok (Dict.set sentence (fadd idf v, qtd) sentences_mwm)
    | None =>
        v ← idfs_get idfs word;
        qtd ← query_term_density query sentences sentence;
        Ok (Dict.set sentence (v, qtd) sentences_mwm)
    end
  else Ok sentences_mwm.

Definition sentences_mwm (query : gset string)
    (sentences : list (string * list string)) (idfs : gmap string num)
  : result (list (string * (num * num))) :=
  foldM (λ sentences_mwm '(sentence, sentence_words),
      foldM (score_word query sentences idfs sentence sentence_words)
        (elements query) sentences_mwm)
    sentences [].

Definition top_sentences (query : gset string)
    (sentences : list (string * list string)) (idfs : gmap string num)
    (n : nat) : result (list string) :=
  sentences_mwm ← sentences_mwm query sentences idfs;
  let sorted_sentences := (sorted_reverse snd tuple_lt sentences_mwm).*1 in
  Ok (take n sorted_sentences).

(** *** The scores as the code computes them *)

Definition idf_of (idfs : gmap string num) (t : string) : num :=
  default (of_int 0) (idfs !! t).

(** The score of a document: [sum] of the products [tf * idf] listed in
    the order of the query. *)
Definition tfidf (query : gset string) (idfs : gmap string num)
    (document : list string) : num :=
  fsum ((λ q, fmul (of_int (length (filter (λ w, w = q) document)))
                   (idf_of idfs q))
        <$> elements query).

Definition tfidf_table (query : gset string) (idfs : gmap string num)
    (files : list (string * list string)) : list (string * num) :=
  (λ '(filename, document), (filename, tfidf query idfs document)) <$> files.

(** The first key of a sentence: the IDF of the first contained query
    token, to which the IDFs of the others are added one by one in the
    order of the query. *)
Definition primary (idfs : gmap string num) (t : string) (ts : list string)
  : num :=
  fold_left fadd (idf_of idfs <$> ts) (idf_of idfs t).

Definition density (query : gset string) (words : list string) : num :=
  int_div (length (filter (λ w, w ∈ query) words)) (length words).

Definition scored (query : gset string) (idfs : gmap string num)
    (sentences : list (string * list string))
  : list (string * (num * num)) :=
  omap (λ '(sentence, words),
      match contained query words with
      | [] => None
      | t :: ts => Some (sentence, (primary idfs t ts, density query words))
      end) sentences.

Definition covers (idfs : gmap string num) (query : gset string)
    (units : list (string * list string)) : Prop :=
  ∀ name words t,
    (name, words) ∈ units → t ∈ query → t ∈ words → is_Some (idfs !! t).
End rankers.
End Float.

#[global] Existing Instance Float.flt_dec.
#[global] Existing Instance Float.feq_dec.

(** The real numbers of the idealised model are one such number type. *)
Definition R_num : Float.Num :=
  {| Float.num := R;
     Float.of_int := INR;
     Float.fadd := Rplus;
     Float.fmul := Rmult;
     Float.fsum := py_sum;
     Float.int_div := λ a b, (INR a / INR b)%R;
     Float.flt := Rlt;
     Float.feq := eq |}.

(** ** Sample inputs *)

(** The corpus of the specification's second scenario, tokenised. *)
Definition dogs_cats : list (string * list string) :=
  [("A", ["dogs"; "bark"; "loudly"]); ("B", ["cats"; "purr"; "softly"])]%string.

(** A sentence table with a one-word sentence, a longer one and a
    sentence that has no token left after tokenisation. *)
Definition cat_sentences : list (string * list string) :=
  [("The cat sat on the mat.", ["cat"; "sat"; "mat"]);
   ("A cat.", ["cat"]);
   ("...", [])]%string.

Definition cat_query : gset string := {["cat"%string]}.

Definition cat_idfs : gmap string R := {["cat"%string := 0%R]}.

(** The corpus of the specification's first scenario, tokenised; its
    query is [cat_query] and [cat_idfs] is its IDF table restricted to the
    query. *)
Definition cat_files : list (string * list string) :=
  [("A", ["cat"; "sat"]); ("B", ["cat"; "dog"; "played"])]%string.

(** A query with a token that occurs in no document. *)
Definition birds_query : gset string := {["birds"%string]}.

Definition cats_query : gset string := {["cats"%string]}.

(** [dogs_cats] with its units in the other order, and with other unit
    names, token order and repetitions. *)
Definition cats_dogs : list (string * list string) :=
  [("B", ["cats"; "purr"; "softly"]); ("A", ["dogs"; "bark"; "loudly"])]%string.

Definition dogs_cats_shuffled : list (string * list string) :=
  [("x", ["loudly"; "dogs"; "bark"; "dogs"]);
   ("y", ["softly"; "purr"; "cats"])]%string.

(** An IDF table that lacks the token "purr". *)
Definition partial_idfs : gmap string R :=
  {["cats"%string := ln 2; "dogs"%string := ln 2]}.

Definition cats_purr_query : gset string := {["cats"; "purr"]}%string.

(** ** The query cycle of [main] *)

(** [text.split("\n")]: the pieces between line feeds, at least one. *)
Fixpoint split_newline (text : string) : list string :=
  match text with
  | EmptyString => [EmptyString]
  | String c text' =>
      if Ascii.eqb c "010"%char then EmptyString :: split_newline text'
      else
        match split_newline text' with
        | [] => [String c EmptyString]
        | passage :: passages => String c passage :: passages
        end
  end.

Definition FILE_MATCHES : nat := 1.
Definition SENTENCE_MATCHES : nat := 1.

(** [files[filename]] on the table of raw texts. *)
Definition files_get (files : list (string * string)) (filename : string)
  : result string :=
  match Dict.get filename files with
  | Some text => Ok text
  | None => Raise KeyError
  end.

(** The text functions [questions.py] takes from Python and NLTK are
    parameters: [str.lower], [str.isalpha], [nltk.tokenize.word_tokenize],
    the list [nltk.corpus.stopwords.words('english')] and
    [nltk.sent_tokenize]. *)
Section query_cycle.
Variables (lower : string → string) (isalpha : string → bool).
Variables (word_tokenize : string → list string) (stopwords : list string).
Variable sent_tokenize : string → list string.

Definition tokenize (document : string) : list string :=
  filter (λ word, isalpha word ∧ word ∉ stopwords)
    (word_tokenize (lower document)).

(** [{filename: tokenize(files[filename]) for filename in files}] *)
Definition file_words (files : list (string * string))
  : result (list (string * list string)) :=
  foldM (λ file_words filename,
      text ← files_get files filename;
      Ok (Dict.set filename (tokenize text) file_words))
    (Dict.keys files) [].

(** The loop of [main] that fills [sentences] from the top files: a
    sentence is stored with its tokens unless it has none. *)
Definition extract_sentences (files : list (string * string))
    (filenames : list string) : result (list (string * list string)) :=
  foldM (λ sentences filename,
      text ← files_get files filename;
      Ok (fold_left (λ sentences passage,
             fold_left (λ sentences sentence,
                 let tokens := tokenize sentence in
                 match tokens with
                 | [] => sentences
                 | _ :: _ => Dict.set sentence tokens sentences
                 end) (sent_tokenize passage) sentences)
           (split_newline text) sentences))
    filenames [].

(** [main] after the corpus is loaded: [files] is the result of
    [load_files], [input] the line read from the user, and the result is
    the list of lines printed. *)
Definition main (files : list (string * string)) (input : string)
  : result (list string) :=
  file_words ← file_words files;
  file_idfs ← compute_idfs file_words;
  let query : gset string := list_to_set (tokenize input) in
  filenames ← top_files query file_words file_idfs FILE_MATCHES;
  sentences ← extract_sentences files filenames;
  idfs ← compute_idfs sentences;
  top_sentences query sentences idfs SENTENCE_MATCHES.

(** The tables [main] passes to the sentence ranker: unique sentences,
    each with its own tokens, of which there is at least one. *)
Definition sentence_table (sentences : list (string * list string)) : Prop :=
  Dict.wf sentences
  ∧ ∀ sentence tokens,
      (sentence, tokens) ∈ sentences →
      tokens = tokenize sentence ∧ tokens ≠ [].
End query_cycle.

(** A small instance of the text functions: words are separated by single
    spaces, sentences are whole lines and "the" is the only stopword. *)
Fixpoint split_space (text : string) : list string :=
  match text with
  | EmptyString => [EmptyString]
  | String c text' =>
      if Ascii.eqb c " "%char then EmptyString :: split_space text'
      else
        match split_space text' with
        | [] => [String c EmptyString]
        | word :: words => String c word :: words
        end
  end.

Definition toy_lower (text : string) : string := text.
Definition toy_isalpha (word : string) : bool := negb (String.eqb word "").
Definition toy_stopwords : list string := ["the"%string].
Definition toy_sent_tokenize (passage : string) : list string := [passage].

Definition toy_tokenize : string → list string :=
  tokenize toy_lower toy_isalpha split_space toy_stopwords.

Definition toy_extract_sentences
  : list (string * string) → list string → result (list (string * list string)) :=
  extract_sentences toy_lower toy_isalpha split_space toy_stopwords
    toy_sent_tokenize.

Definition toy_main : list (string * string) → string → result (list string) :=
  main toy_lower toy_isalpha split_space toy_stopwords toy_sent_tokenize.

Definition toy_files : list (string * string) :=
  [("a.txt", "the cat" +:+ String "010"%char "the dog");
   ("b.txt", "the bird")]%string.

Definition cats_idfs : gmap string R := {["cats"%string := ln 2]}.

(** A number type with rounding, on which the rankers run: natural numbers
    whose sum loses one unit when both operands are not 0, as a float sum
    can fall below the real sum; densities are in thousandths. *)
Definition rounding_add (a b : nat) : nat :=
  match a, b with
  | 0, _ => b
  | _, 0 => a
  | _, _ => a + b - 1
  end.

Definition rounding_num : Float.Num :=
  {| Float.num := nat;
     Float.of_int := λ k, k;
     Float.fadd := rounding_add;
     Float.fmul := Nat.mul;
     Float.fsum := λ l, fold_left rounding_add l 0;
     Float.int_div := λ a b, (1000 * a) / b;
     Float.flt := lt;
     Float.feq := eq |}.

(** Two units whose exact scores tie, 3 + 4 against 7, and whose computed
    scores do not. *)
Definition abc_query : gset string := {["a"; "b"; "c"]}%string.

Definition abc_idfs : gmap string nat :=
  {["a" := 3; "b" := 4; "c" := 7]}%string.

Definition abc_sentences : list (string * list string) :=
  [("s2", ["a"; "b"]); ("s1", ["c"; "x"])]%string.

Definition abc_files : list (string * list string) :=
  [("A", ["a"; "b"]); ("B", ["c"])]%string.

(** * Properties *)

(** ** The exception monad *)

Lemma bind_Ok {A B} (f : A → result B) (a : A) : (Ok a ≫= f) = f a.
Proof. reflexivity. Qed.

Lemma bind_Raise {A B} (f : A → result B) (e : exn) :
  (Raise e ≫= f) = Raise e.
Proof. reflexivity. Qed.

Lemma foldM_cons {A S} (body : S → A → result S) (x : A) (l : list A) (s : S) :
  foldM body (x :: l) s = (body s x ≫= foldM body l).
Proof. reflexivity. Qed.

Lemma mapM_cons {A B} (f : A → result B) (x : A) (l : list A) :
  mapM f (x :: l) = (y ← f x; ys ← mapM f l; Ok (y :: ys)).
Proof. reflexivity. Qed.

Lemma idfs_get_None (idfs : gmap string R) (word : string) :
  idfs !! word = None → idfs_get idfs word = Raise KeyError.
Proof. intros Hnone. unfold idfs_get. by rewrite Hnone. Qed.

(** ** Dictionaries *)

Section dict_facts.
Context {K V : Type} `{EqDecision K}.
Implicit Types (k : K) (v : V) (d : list (K * V)).

Lemma get_None k d : Dict.get k d = None ↔ k ∉ Dict.keys d.
Proof.
  unfold Dict.keys. induction d as [|[k' v'] d IH]; simpl.
  - split; [intros _; apply not_elem_of_nil | done].
  - rewrite not_elem_of_cons. destruct (decide (k = k')) as [->|Hne].
    + split; [done | by intros [? _]].
    + rewrite IH. split; [auto | by intros [_ ?]].
Qed.

Lemma get_elem k v d : Dict.wf d → (k, v) ∈ d → Dict.get k d = Some v.
Proof.
  unfold Dict.wf, Dict.keys. induction d as [|[k' v'] d IH]; simpl.
  - intros _ Hin. by apply elem_of_nil in Hin.
  - rewrite NoDup_cons. intros [Hk' Hnd] Hin.
    apply elem_of_cons in Hin as [Heq|Hin].
    + injection Heq as -> ->. by rewrite decide_True.
    + destruct (decide (k = k')) as [->|]; [|by apply IH].
      destruct Hk'. apply (list_elem_of_fmap_2 fst) in Hin. done.
Qed.

Lemma set_fresh k v d : k ∉ Dict.keys d → Dict.set k v d = d ++ [(k, v)].
Proof.
  unfold Dict.keys. induction d as [|[k' v'] d IH]; simpl; [done|].
  rewrite not_elem_of_cons. intros [Hne Hk].
  rewrite decide_False by done. by rewrite IH.
Qed.

Lemma set_last k v v' d :
  k ∉ Dict.keys d → Dict.set k v' (d ++ [(k, v)]) = d ++ [(k, v')].
Proof.
  unfold Dict.keys. induction d as [|[k1 v1] d IH]; simpl.
  - intros _. by rewrite decide_True.
  - rewrite not_elem_of_cons. intros [Hne Hk].
    rewrite decide_False by done. by rewrite IH.
Qed.

Lemma get_last k v d : k ∉ Dict.keys d → Dict.get k (d ++ [(k, v)]) = Some v.
Proof.
  unfold Dict.keys. induction d as [|[k1 v1] d IH]; simpl.
  - intros _. by rewrite decide_True.
  - rewrite not_elem_of_cons. intros [Hne Hk].
    rewrite decide_False by done. by apply IH.
Qed.
End dict_facts.

(** ** IDF computation *)

Section idf_facts.
Implicit Types (documents : list (string * list string)) (m : gmap string R).

(** The count the code computes is the specification's [d]. *)
Lemma num_documents_with_word_spec word documents :
  num_documents_with_word word documents = units_containing word documents.
Proof.
  unfold num_documents_with_word, units_containing, Dict.values.
  induction documents as [|[name text] documents IH]; [done|].
  rewrite !fmap_cons, filter_cons. simpl. rewrite IH.
  destruct (decide (word ∈ text)).
  - by rewrite bool_decide_eq_true_2.
  - by rewrite bool_decide_eq_false_2.
Qed.

Lemma units_containing_le t documents :
  units_containing t documents ≤ length documents.
Proof. apply length_filter. Qed.

Lemma units_containing_pos t documents :
  occurs t documents → 0 < units_containing t documents.
Proof.
  intros (name & text & Hin & Ht). unfold units_containing.
  assert (Hf : (name, text) ∈ filter (λ unit, t ∈ unit.2) documents)
    by (apply list_elem_of_filter; done).
  destruct (filter _ documents); [by apply elem_of_nil in Hf | simpl; lia].
Qed.

Lemma compute_word_idf_occurs word documents :
  occurs word documents →
  compute_word_idf word documents = Ok (spec_idf word documents).
Proof.
  intros Hocc. unfold compute_word_idf, spec_idf, py_truediv.
  rewrite num_documents_with_word_spec.
  pose proof (units_containing_pos _ _ Hocc) as Hpos.
  pose proof (units_containing_le word documents) as Hle.
  rewrite decide_False by lia. simpl. unfold math_log.
  destruct (Rlt_dec _ _) as [|Hn]; [done|]. destruct Hn.
  apply Rdiv_lt_0_compat; apply lt_0_INR; lia.
Qed.

(** The loop over the words of one text. *)
Lemma compute_idfs_words documents words m :
  (∀ w, w ∈ words → occurs w documents) →
  ∃ m',
    foldM (λ (idf_dict : gmap string R) word,
        match idf_dict !! word with
        | None =>
            v ← compute_word_idf word documents;
            Ok (<[word := v]> idf_dict)
        | Some _ => Ok idf_dict
        end) words m = Ok m'
    ∧ (∀ w, m' !! w = m !! w
            ∨ (m !! w = None ∧ w ∈ words
               ∧ m' !! w = Some (spec_idf w documents)))
    ∧ (∀ w, w ∈ words → is_Some (m' !! w)).
Proof.
  revert m. induction words as [|word words IH]; intros m Hocc; simpl.
  - exists m. split_and!; [done | by left |].
    intros w Hw. by apply elem_of_nil in Hw.
  - assert (Hstep : ∃ m1,
        match m !! word with
        | None =>
            v ← compute_word_idf word documents;
            Ok (<[word := v]> m)
        | Some _ => Ok m
        end = Ok m1
        ∧ is_Some (m1 !! word)
        ∧ ∀ w, m1 !! w = m !! w
               ∨ (m !! w = None ∧ w = word
                  ∧ m1 !! w = Some (spec_idf w documents))).
    { destruct (m !! word) as [v|] eqn:Hm.
      - exists m. split_and!; [done | by rewrite Hm | by left].
      - rewrite compute_word_idf_occurs by (apply Hocc; left). simpl.
        eexists. split_and!; [done | by rewrite lookup_insert_eq |].
        intros w. destruct (decide (w = word)) as [->|Hne].
        + right. by rewrite lookup_insert_eq.
        + left. by rewrite lookup_insert_ne. }
    destruct Hstep as (m1 & -> & Hword & Hm1). simpl.
    destruct (IH m1) as (m' & Hfold & Hm' & Hdom).
    { intros w Hw. apply Hocc. by right. }
    exists m'. split_and!; [done | |].
    + intros w. destruct (Hm' w) as [Heq|(Hnone & Hin & Hsome)].
      * rewrite Heq. destruct (Hm1 w) as [?|(? & -> & ?)]; [by left|].
        right. split_and!; [done | left | done].
      * destruct (Hm1 w) as [Heq|(? & ? & Hs)]; [|congruence].
        right. rewrite <- Heq. split_and!; [done | by right | done].
    + intros w Hw. apply elem_of_cons in Hw as [->|Hw]; [|by apply Hdom].
      destruct (Hm' word) as [->|(_ & _ & ->)]; [done | eauto].
Qed.

(** The loop over the texts. *)
Lemma compute_idfs_texts documents texts m :
  (∀ text w, text ∈ texts → w ∈ text → occurs w documents) →
  ∃ m',
    foldM (λ idf_dict text,
        foldM (λ (idf_dict : gmap string R) word,
            match idf_dict !! word with
            | None =>
                v ← compute_word_idf word documents;
                Ok (<[word := v]> idf_dict)
            | Some _ => Ok idf_dict
            end) text idf_dict) texts m = Ok m'
    ∧ (∀ w, m' !! w = m !! w
            ∨ (m !! w = None ∧ (∃ text, text ∈ texts ∧ w ∈ text)
               ∧ m' !! w = Some (spec_idf w documents)))
    ∧ (∀ text w, text ∈ texts → w ∈ text → is_Some (m' !! w)).
Proof.
  revert m. induction texts as [|text texts IH]; intros m Hocc; simpl.
  - exists m. split_and!; [done | by left |].
    intros text w Ht. by apply elem_of_nil in Ht.
  - destruct (compute_idfs_words documents text m)
      as (m1 & -> & Hm1 & Hdom1).
    { intros w Hw. apply (Hocc text); [left | done]. }
    simpl. destruct (IH m1) as (m' & Hfold & Hm' & Hdom).
    { intros t w Ht. apply Hocc. by right. }
    exists m'. split_and!; [done | |].
    + intros w. destruct (Hm' w) as [Heq|(Hnone & (t & Ht & Hw) & Hsome)].
      * rewrite Heq. destruct (Hm1 w) as [?|(? & ? & ?)]; [by left|].
        right. split_and!; [done | exists text; split; [left | done] | done].
      * destruct (Hm1 w) as [Heq|(? & ? & Hs)]; [|congruence].
        right. rewrite <- Heq.
        split_and!; [done | exists t; split; [by right | done] | done].
    + intros t w Ht Hw. apply elem_of_cons in Ht as [->|Ht].
      * destruct (Hdom1 w Hw) as [v Hv].
        destruct (Hm' w) as [->|(Hn & _)]; [eauto | congruence].
      * by apply (Hdom t).
Qed.

(** [compute_idfs] never raises, and its table holds exactly the tokens
    that occur, each with the value [ln (N / d)]. *)
Lemma compute_idfs_table documents :
  ∃ idfs,
    compute_idfs documents = Ok idfs
    ∧ (∀ t, occurs t documents → idfs !! t = Some (spec_idf t documents))
    ∧ (∀ t, is_Some (idfs !! t) → occurs t documents).
Proof.
  assert (Hval : ∀ text, text ∈ Dict.values documents →
                         ∃ name, (name, text) ∈ documents).
  { intros text Ht. unfold Dict.values in Ht.
    apply list_elem_of_fmap in Ht as ([name text'] & -> & Hin). eauto. }
  destruct (compute_idfs_texts documents (Dict.values documents) ∅)
    as (idfs & Hrun & Hidfs & Hdom).
  { intros text w Ht Hw. destruct (Hval text Ht) as [name Hin].
    by exists name, text. }
  exists idfs. split_and!; [done | |].
  - intros t (name & text & Hin & Ht).
    destruct (Hdom text t) as [v Hv]; [|done|].
    { unfold Dict.values. by apply (list_elem_of_fmap_2 snd) in Hin. }
    destruct (Hidfs t) as [Heq|(_ & _ & Hs)]; [|done].
    rewrite lookup_empty in Heq. congruence.
  - intros t [v Hv]. destruct (Hidfs t) as [Heq|(_ & (text & Ht & Hw) & _)].
    + rewrite Heq, lookup_empty in Hv. discriminate.
    + destruct (Hval text Ht) as [name Hin]. by exists name, text.
Qed.
End idf_facts.

(** C5. [compute_idfs] returns a table that maps every token [t] occurring
    in some unit to [ln (N / d)], [N] the number of units and [d] the
    number of units containing [t]; a token contained in all [N] units
    gets 0 and a token contained in exactly one of [N > 1] units gets
    [ln N].  (A non-empty unit set is implied by the occurrence of [t].) *)
Theorem compute_idfs_ln documents :
  documents ≠ [] →
  ∃ idfs,
    compute_idfs documents = Ok idfs
    ∧ ∀ t, occurs t documents →
        idfs !! t
        = Some (ln (INR (length documents)
                    / INR (units_containing t documents)))
        ∧ (units_containing t documents = length documents →
           idfs !! t = Some 0%R)
        ∧ (units_containing t documents = 1 → 1 < length documents →
           idfs !! t = Some (ln (INR (length documents)))).
Proof.
  intros _. destruct (compute_idfs_table documents) as (idfs & Hrun & Hin & _).
  exists idfs. split; [done|]. intros t Hocc.
  rewrite (Hin t Hocc). unfold spec_idf.
  pose proof (units_containing_pos _ _ Hocc) as Hpos.
  split_and!; [done | |].
  - intros Hall. rewrite Hall. f_equal. rewrite Rdiv_diag; [apply ln_1|].
    apply not_0_INR. lia.
  - intros -> _. f_equal. f_equal. simpl. apply Rdiv_1_r.
Qed.

Lemma compute_idfs_ln_witness :
  dogs_cats ≠ []
  ∧ ∃ idfs,
      compute_idfs dogs_cats = Ok idfs
      ∧ ∀ t, occurs t dogs_cats →
          idfs !! t
          = Some (ln (INR (length dogs_cats)
                      / INR (units_containing t dogs_cats)))
          ∧ (units_containing t dogs_cats = length dogs_cats →
             idfs !! t = Some 0%R)
          ∧ (units_containing t dogs_cats = 1 → 1 < length dogs_cats →
             idfs !! t = Some (ln (INR (length dogs_cats)))).
Proof. split; [done | apply (compute_idfs_ln dogs_cats); done]. Defined.

(** C6, as stated: over the empty unit set [compute_idfs] raises.  It does
    not: no text is visited, so no IDF value is ever computed. *)
Lemma compute_idfs_empty_not_fatal :
  compute_idfs [] = Ok ∅ ∧ ¬ ∃ e, compute_idfs [] = Raise e.
Proof. split; [reflexivity | intros [e He]; discriminate]. Qed.

(** C6, amended.  [compute_idfs] returns a table for every unit set; for
    the empty one it is the empty table.  The calculation that is
    undefined for zero units is [compute_word_idf], which divides by
    zero there and which [compute_idfs] does not reach. *)
Theorem compute_idfs_total_empty_table :
  (∀ documents, ∃ idfs, compute_idfs documents = Ok idfs)
  ∧ compute_idfs [] = Ok ∅
  ∧ ∀ word, compute_word_idf word [] = Raise ZeroDivisionError.
Proof.
  split_and!; [| reflexivity | reflexivity].
  intros documents.
  destruct (compute_idfs_table documents) as (idfs & Hrun & _). eauto.
Qed.

(** C7. The keys of the table returned by [compute_idfs] are exactly the
    tokens that occur in some unit's token sequence. *)
Theorem compute_idfs_dom documents :
  ∃ idfs,
    compute_idfs documents = Ok idfs
    ∧ ∀ t, t ∈ dom idfs ↔ occurs t documents.
Proof.
  destruct (compute_idfs_table documents) as (idfs & Hrun & Hin & Hout).
  exists idfs. split; [done|]. intros t. rewrite elem_of_dom. split.
  - apply Hout.
  - intros Hocc. by rewrite (Hin t Hocc).
Qed.

(** ** Query term density *)

Section density_facts.
Implicit Types (query : gset string) (sentences : list (string * list string)).

Lemma sum_list_ones {A} (l : list A) : sum_list ((λ _, 1) <$> l) = length l.
Proof.
  induction l as [|x l IH]; [done|]. rewrite fmap_cons. simpl. by rewrite IH.
Qed.

Lemma filter_none {A} (P : A → Prop) `{∀ x, Decision (P x)} (l : list A) :
  (∀ x, x ∈ l → ¬ P x) → filter P l = [].
Proof.
  induction l as [|x l IH]; intros Hl; [done|].
  rewrite filter_cons_False by (apply Hl; left).
  apply IH. intros y Hy. apply Hl. by right.
Qed.

Lemma filter_all {A} (P : A → Prop) `{∀ x, Decision (P x)} (l : list A) :
  (∀ x, x ∈ l → P x) → filter P l = l.
Proof.
  induction l as [|x l IH]; intros Hl; [done|].
  rewrite filter_cons_True by (apply Hl; left).
  f_equal. apply IH. intros y Hy. apply Hl. by right.
Qed.

Lemma query_term_density_get query sentences sentence sentence_words :
  Dict.get sentence sentences = Some sentence_words →
  sentence_words ≠ [] →
  query_term_density query sentences sentence
  = Ok (spec_density query sentence_words).
Proof.
  intros Hget Hne. unfold query_term_density, py_truediv, spec_density.
  rewrite Hget, sum_list_ones.
  rewrite decide_False; [done|]. by destruct sentence_words.
Qed.

Lemma spec_density_bounds query words :
  words ≠ [] → (0 <= spec_density query words <= 1)%R.
Proof.
  intros Hne. unfold spec_density.
  assert (0 < INR (length words))%R as Hlen.
  { apply lt_0_INR. destruct words; [done | simpl; lia]. }
  assert (INR (length (filter (λ w, w ∈ query) words))
          <= INR (length words))%R as Hle.
  { apply le_INR, length_filter. }
  pose proof (pos_INR (length (filter (λ w, w ∈ query) words))) as Hpos.
  split.
  - apply Rle_mult_inv_pos; done.
  - apply (Rmult_le_reg_r (INR (length words))); [done|].
    unfold Rdiv. rewrite Rmult_assoc, Rinv_l by lra. lra.
Qed.
End density_facts.

(** C8. For a sentence of the table whose token sequence is not empty,
    [query_term_density] returns the number of its tokens that are in the
    query divided by the number of its tokens, a value in [0, 1]: 0 when no
    token of the sentence is in the query and 1 when all of them are. *)
Theorem query_term_density_range query sentences sentence sentence_words :
  Dict.get sentence sentences = Some sentence_words →
  sentence_words ≠ [] →
  ∃ qtd,
    query_term_density query sentences sentence = Ok qtd
    ∧ qtd = (INR (length (filter (λ w, w ∈ query) sentence_words))
             / INR (length sentence_words))%R
    ∧ (0 <= qtd <= 1)%R
    ∧ ((∀ w, w ∈ sentence_words → w ∉ query) → qtd = 0%R)
    ∧ ((∀ w, w ∈ sentence_words → w ∈ query) → qtd = 1%R).
Proof.
  intros Hget Hne. exists (spec_density query sentence_words).
  split; [|split; [|split; [|split]]].
  - by apply query_term_density_get.
  - done.
  - by apply spec_density_bounds.
  - intros Hnone. unfold spec_density.
    assert (filter (λ w, w ∈ query) sentence_words = []) as ->.
    { by apply filter_none. }
    simpl. apply Rdiv_0_l.
  - intros Hall. unfold spec_density.
    assert (filter (λ w, w ∈ query) sentence_words = sentence_words) as ->.
    { by apply filter_all. }
    apply Rdiv_diag, not_0_INR. by destruct sentence_words.
Qed.

Lemma query_term_density_range_witness :
  Dict.get "A cat."%string cat_sentences = Some ["cat"%string]
  ∧ ["cat"%string] ≠ []
  ∧ ∃ qtd,
      query_term_density cat_query cat_sentences "A cat." = Ok qtd
      ∧ qtd = (INR (length (filter (λ w, w ∈ cat_query) ["cat"%string]))
               / INR (length ["cat"%string]))%R
      ∧ (0 <= qtd <= 1)%R
      ∧ ((∀ w, w ∈ ["cat"%string] → w ∉ cat_query) → qtd = 0%R)
      ∧ ((∀ w, w ∈ ["cat"%string] → w ∈ cat_query) → qtd = 1%R).
Proof.
  split; [reflexivity|]. split; [discriminate|].
  apply (query_term_density_range cat_query cat_sentences "A cat."
           ["cat"%string]); [reflexivity | discriminate].
Defined.

(** ** The scoring loop of the sentence ranker *)

Section mwm_facts.
Variables (query : gset string) (sentences : list (string * list string)).
Variable idfs : gmap string R.
Implicit Types (mwm : list (string * (R * R))) (q ws : list string).

Lemma idfs_get_Some word :
  is_Some (idfs !! word) → idfs_get idfs word = Ok (idf_of idfs word).
Proof. intros [v Hv]. unfold idfs_get, idf_of. by rewrite Hv. Qed.

Lemma fold_left_Rplus (l : list R) (a : R) :
  fold_left Rplus l a = (a + sum_R l)%R.
Proof.
  revert a. induction l as [|x l IH]; intros a; simpl; [lra|].
  rewrite IH. lra.
Qed.

Lemma score_word_skip sentence ws mwm word :
  word ∉ ws → score_word query sentences idfs sentence ws mwm word = Ok mwm.
Proof. intros Hout. unfold score_word. by rewrite bool_decide_eq_false_2. Qed.

Lemma score_word_add sentence ws mwm word idf qtd :
  word ∈ ws → is_Some (idfs !! word) →
  Dict.get sentence mwm = Some (idf, qtd) →
  score_word query sentences idfs sentence ws mwm word
  = Ok (Dict.set sentence ((idf + idf_of idfs word)%R, qtd) mwm).
Proof.
  intros Hin Hsome Hget. unfold score_word.
  by rewrite bool_decide_eq_true_2, Hget, idfs_get_Some.
Qed.

Lemma score_word_new sentence ws mwm word :
  word ∈ ws → is_Some (idfs !! word) →
  Dict.get sentence sentences = Some ws →
  Dict.get sentence mwm = None →
  score_word query sentences idfs sentence ws mwm word
  = Ok (Dict.set sentence (idf_of idfs word, spec_density query ws) mwm).
Proof.
  intros Hin Hsome Hws Hget. unfold score_word.
  rewrite bool_decide_eq_true_2, Hget, idfs_get_Some by done. simpl.
  rewrite (query_term_density_get _ _ _ ws); [done | done |].
  intros ->. by apply elem_of_nil in Hin.
Qed.

(** Once the sentence has its entry, every further contained query word
    adds its IDF to the first component. *)
Lemma score_word_more sentence ws q mwm acc qtd :
  sentence ∉ Dict.keys mwm →
  (∀ w, w ∈ q → w ∈ ws → is_Some (idfs !! w)) →
  foldM (score_word query sentences idfs sentence ws) q
    (mwm ++ [(sentence, (acc, qtd))])
  = Ok (mwm ++ [(sentence,
                 ((acc + sum_R (idf_of idfs <$> filter (λ w, w ∈ ws) q))%R,
                  qtd))]).
Proof.
  intros Hfresh. revert acc.
  induction q as [|word q IH]; intros acc Hcov.
  - simpl. by rewrite Rplus_0_r.
  - assert (Hq : ∀ w, w ∈ q → w ∈ ws → is_Some (idfs !! w))
      by (intros w Hw; apply Hcov; by right).
    rewrite foldM_cons. destruct (decide (word ∈ ws)) as [Hin|Hout].
    + rewrite (score_word_add _ _ _ _ acc qtd);
        [| done | apply Hcov; [left | done] | by apply get_last].
      rewrite bind_Ok, set_last, IH by done.
      rewrite filter_cons_True by done. rewrite fmap_cons. simpl.
      do 5 f_equal. lra.
    + rewrite score_word_skip, bind_Ok by done.
      rewrite filter_cons_False by done. by apply IH.
Qed.

(** The inner loop for a sentence that has no entry yet. *)
Lemma score_word_loop sentence ws q mwm :
  Dict.get sentence sentences = Some ws →
  sentence ∉ Dict.keys mwm →
  (∀ w, w ∈ q → w ∈ ws → is_Some (idfs !! w)) →
  foldM (score_word query sentences idfs sentence ws) q mwm
  = Ok (match filter (λ w, w ∈ ws) q with
        | [] => mwm
        | _ :: _ =>
            mwm ++ [(sentence,
                     (sum_R (idf_of idfs <$> filter (λ w, w ∈ ws) q),
                      spec_density query ws))]
        end).
Proof.
  intros Hget Hfresh.
  induction q as [|word q IH]; intros Hcov; [done|].
  assert (Hq : ∀ w, w ∈ q → w ∈ ws → is_Some (idfs !! w))
    by (intros w Hw; apply Hcov; by right).
  rewrite foldM_cons. destruct (decide (word ∈ ws)) as [Hin|Hout].
  - rewrite score_word_new;
      [| done | apply Hcov; [left | done] | done | by apply get_None].
    rewrite bind_Ok, set_fresh, score_word_more by done.
    by rewrite filter_cons_True by done.
  - rewrite score_word_skip, bind_Ok by done.
    rewrite filter_cons_False by done. by apply IH.
Qed.

Lemma keys_scored units : Dict.keys (scored query idfs units) ⊆ Dict.keys units.
Proof.
  unfold Dict.keys, scored. intros s Hs.
  apply list_elem_of_fmap in Hs as ([s' v] & -> & Hin).
  apply list_elem_of_omap in Hin as ([s0 ws] & Hin & Hsome).
  destruct (contained query ws); [done|]. injection Hsome as -> _.
  by apply (list_elem_of_fmap_2 fst) in Hin.
Qed.

Lemma sentences_mwm_loop units mwm :
  (∀ s ws, (s, ws) ∈ units → Dict.get s sentences = Some ws) →
  NoDup (Dict.keys mwm ++ Dict.keys units) →
  covers idfs query units →
  foldM (λ sentences_mwm '(sentence, sentence_words),
      foldM (score_word query sentences idfs sentence sentence_words)
        (elements query) sentences_mwm)
    units mwm
  = Ok (mwm ++ scored query idfs units).
Proof.
  revert mwm. induction units as [|[s ws] units IH]; intros mwm Hget Hnd Hcov.
  - simpl. by rewrite app_nil_r.
  - simpl. unfold Dict.keys in Hnd. rewrite fmap_cons in Hnd. simpl in Hnd.
    apply NoDup_app in Hnd as (Hmwm & Hdisj & Hunits).
    apply NoDup_cons in Hunits as [Hs Hunits].
    assert (Hfresh : s ∉ Dict.keys mwm).
    { intros Hin. apply (Hdisj s Hin). left. }
    rewrite (score_word_loop s ws) by
      (done || (apply Hget; left)
       || (intros w Hw; apply (Hcov s ws w); [left | by apply elem_of_elements])).
    simpl. fold (contained query ws). unfold spec_primary.
    assert (Hrest : ∀ mwm', Dict.keys mwm' = Dict.keys mwm ++ [s]
              ∨ mwm' = mwm →
        foldM (λ sentences_mwm '(sentence, sentence_words),
            foldM (score_word query sentences idfs sentence sentence_words)
              (elements query) sentences_mwm)
          units mwm'
        = Ok (mwm' ++ scored query idfs units)).
    { intros mwm' Hkeys. apply IH.
      - intros s' ws' Hin. apply Hget. by right.
      - apply NoDup_app. destruct Hkeys as [->| ->].
        + split_and!; [| | done].
          * apply NoDup_app. split_and!; [done | | apply NoDup_singleton].
            intros x Hx Hx'. apply list_elem_of_singleton in Hx' as ->. done.
          * intros x Hx Hx'. apply elem_of_app in Hx as [Hx|Hx].
            -- apply (Hdisj x Hx). by right.
            -- apply list_elem_of_singleton in Hx as ->. done.
        + split_and!; [done | | done].
          intros x Hx Hx'. apply (Hdisj x Hx). by right.
      - intros s' ws' w Hin. apply (Hcov s' ws' w). by right. }
    destruct (contained query ws) as [|w0 rest] eqn:Hc.
    + apply Hrest. by right.
    + rewrite Hrest.
      * by rewrite <- app_assoc.
      * left. unfold Dict.keys. by rewrite fmap_app.
Qed.

(** With a table of unique sentences and an IDF table covering the
    query words in use, the loop builds exactly the scored set. *)
Lemma sentences_mwm_scored :
  Dict.wf sentences →
  covers idfs query sentences →
  sentences_mwm query sentences idfs = Ok (scored query idfs sentences).
Proof.
  intros Hwf Hcov. unfold sentences_mwm.
  rewrite sentences_mwm_loop; [done | | done | done].
  intros s ws Hin. by apply get_elem.
Qed.
End mwm_facts.

(** ** Sorting *)

Section sorted_facts.
Context {A B : Type} (key : A → B) (lt : B → B → Prop).
Context `{∀ x y, Decision (lt x y)}.
Hypothesis lt_asym : ∀ x y, lt x y → ¬ lt y x.
Hypothesis lt_negtrans : ∀ x y z, ¬ lt x y → ¬ lt y z → ¬ lt x z.

Lemma insert_reverse_perm x l : insert_reverse key lt x l ≡ₚ x :: l.
Proof.
  induction l as [|y l IH]; simpl; [done|].
  destruct (decide (lt (key x) (key y))); [|done].
  rewrite IH. apply Permutation_swap.
Qed.

Lemma sorted_reverse_perm l : sorted_reverse key lt l ≡ₚ l.
Proof.
  induction l as [|x l IH]; simpl; [done|].
  by rewrite insert_reverse_perm, IH.
Qed.

Lemma insert_reverse_sorted x l :
  StronglySorted (not_below key lt) l →
  StronglySorted (not_below key lt) (insert_reverse key lt x l).
Proof.
  induction 1 as [|y l Hl IH Hy]; simpl.
  - repeat constructor.
  - destruct (decide (lt (key x) (key y))) as [Hlt|Hge].
    + constructor; [done|].
      rewrite insert_reverse_perm. constructor; [|done].
      by apply lt_asym.
    + constructor; [by constructor|].
      constructor; [done|].
      eapply Forall_impl; [exact Hy|]. intros z Hz.
      by apply (lt_negtrans _ (key y)).
Qed.

Lemma sorted_reverse_sorted l :
  StronglySorted (not_below key lt) (sorted_reverse key lt l).
Proof.
  induction l as [|x l IH]; simpl; [constructor|].
  by apply insert_reverse_sorted.
Qed.

Lemma StronglySorted_lookup (R : A → A → Prop) l i j a b :
  StronglySorted R l → i < j → l !! i = Some a → l !! j = Some b → R a b.
Proof.
  intros Hs. revert i j. induction Hs as [|x l Hl IH Hx]; intros i j Hij Hi Hj.
  - done.
  - destruct j as [|j]; [lia|]. simpl in Hj. destruct i as [|i].
    + injection Hi as ->. rewrite Forall_forall in Hx.
      apply Hx. by eapply list_elem_of_lookup_2.
    + simpl in Hi. apply (IH i j); [lia | done | done].
Qed.

(** In the sorted list an item with a greater key stands first. *)
Lemma sorted_reverse_greater_first l i j a b :
  sorted_reverse key lt l !! i = Some a →
  sorted_reverse key lt l !! j = Some b →
  lt (key b) (key a) → i < j.
Proof.
  intros Hi Hj Hlt. destruct (decide (i < j)) as [|Hge]; [done|].
  destruct (decide (i = j)) as [->|Hne].
  - rewrite Hi in Hj. injection Hj as ->. by destruct (lt_asym _ _ Hlt).
  - destruct (StronglySorted_lookup (not_below key lt) _ j i b a
                (sorted_reverse_sorted l)); [lia | done | done | done].
Qed.
End sorted_facts.


Lemma tuple_lt_asym (a b : R * R) : tuple_lt a b → ¬ tuple_lt b a.
Proof. unfold tuple_lt. lra. Qed.

Lemma tuple_lt_negtrans (a b c : R * R) :
  ¬ tuple_lt a b → ¬ tuple_lt b c → ¬ tuple_lt a c.
Proof. unfold tuple_lt. lra. Qed.

(** ** Sentence ranking *)

Section top_sentences_facts.
Variables (query : gset string) (idfs : gmap string R).
Implicit Types (sentences : list (string * list string)).

Lemma contained_spec words t :
  t ∈ contained query words ↔ t ∈ query ∧ t ∈ words.
Proof.
  unfold contained. rewrite list_elem_of_filter, elem_of_elements. tauto.
Qed.

Lemma contained_NoDup words : NoDup (contained query words).
Proof. apply NoDup_filter, NoDup_elements. Qed.

Lemma get_scored sentences sentence words :
  Dict.wf sentences → (sentence, words) ∈ sentences →
  Dict.get sentence (scored query idfs sentences)
  = match contained query words with
    | [] => None
    | _ :: _ =>
        Some (spec_primary query idfs words, spec_density query words)
    end.
Proof.
  unfold Dict.wf. induction sentences as [|[s ws] sentences IH].
  - intros _ Hin. by apply elem_of_nil in Hin.
  - unfold Dict.keys. rewrite fmap_cons, NoDup_cons. simpl.
    intros [Hs Hnd] Hin.
    assert (Htail : s ∉ Dict.keys (scored query idfs sentences)).
    { intros Hk. by apply keys_scored in Hk. }
    apply elem_of_cons in Hin as [Heq|Hin].
    + injection Heq as -> ->. unfold scored. simpl.
      destruct (contained query ws).
      * by apply get_None.
      * simpl. by rewrite decide_True.
    + assert (sentence ≠ s) as Hne.
      { intros ->. apply Hs. by apply (list_elem_of_fmap_2 fst) in Hin. }
      unfold scored. simpl. fold (scored query idfs sentences).
      destruct (contained query ws); [by apply IH|].
      simpl. rewrite decide_False by done. by apply IH.
Qed.

Lemma top_sentences_scored sentences n :
  Dict.wf sentences → covers idfs query sentences →
  top_sentences query sentences idfs n
  = Ok (take n (sorted_reverse snd tuple_lt
                  (scored query idfs sentences)).*1).
Proof.
  intros Hwf Hcov. unfold top_sentences.
  by rewrite sentences_mwm_scored.
Qed.

(** A returned sentence is a key of the scored set. *)
Lemma ranking_scored sentences n sentence :
  sentence ∈ take n (sorted_reverse snd tuple_lt
                       (scored query idfs sentences)).*1 →
  sentence ∈ Dict.keys (scored query idfs sentences).
Proof.
  intros Hin. apply subseteq_take in Hin. unfold Dict.keys.
  by rewrite <- (sorted_reverse_perm snd tuple_lt (scored query idfs sentences)).
Qed.
End top_sentences_facts.

(** C3. For a table of sentences and an IDF table with an entry for every
    query token that some sentence contains, [top_sentences] returns a
    ranking, and the primary score it gives a sentence is the sum of the
    IDF values of the query tokens contained in the sentence, each counted
    once; a sentence containing no query token gets no score and is not in
    the ranking, so every returned sentence contains a query token. *)
Theorem top_sentences_primary query sentences idfs n :
  Dict.wf sentences →
  covers idfs query sentences →
  ∃ mwm ranking,
    sentences_mwm query sentences idfs = Ok mwm
    ∧ top_sentences query sentences idfs n = Ok ranking
    ∧ (∀ sentence words, (sentence, words) ∈ sentences →
         NoDup (contained query words)
         ∧ (∀ t, t ∈ contained query words ↔ t ∈ query ∧ t ∈ words)
         ∧ match contained query words with
           | [] => Dict.get sentence mwm = None ∧ sentence ∉ ranking
           | ts =>
               ∃ qtd,
                 Dict.get sentence mwm
                 = Some (sum_R (idf_of idfs <$> ts), qtd)
           end)
    ∧ (∀ sentence, sentence ∈ ranking →
         ∃ words t, (sentence, words) ∈ sentences ∧ t ∈ query ∧ t ∈ words).
Proof.
  intros Hwf Hcov. eexists _, _.
  split; [by apply sentences_mwm_scored|].
  split; [by apply top_sentences_scored|]. split.
  - intros sentence words Hin.
    split; [apply contained_NoDup|]. split; [apply contained_spec|].
    pose proof (get_scored query idfs _ _ _ Hwf Hin) as Hget.
    destruct (contained query words) as [|t ts] eqn:Hc.
    + split; [done|]. intros Hr%ranking_scored. by apply get_None in Hget.
    + unfold spec_primary in Hget. rewrite Hc in Hget. eauto.
  - intros sentence Hr%ranking_scored. unfold Dict.keys in Hr.
    apply list_elem_of_fmap in Hr as ([s v] & -> & Hs). unfold scored in Hs.
    apply list_elem_of_omap in Hs as ([s' ws] & Hin & Hsome).
    destruct (contained query ws) as [|t ts] eqn:Hc; [done|].
    injection Hsome as -> _. exists ws, t. split; [done|].
    apply contained_spec. rewrite Hc. left.
Qed.

Lemma cat_sentences_wf : Dict.wf cat_sentences.
Proof.
  unfold Dict.wf. apply (bool_decide_unpack _). by vm_compute.
Qed.

Lemma cat_idfs_covers : covers cat_idfs cat_query cat_sentences.
Proof.
  intros name words t _ Ht%elem_of_singleton _. subst t.
  unfold cat_idfs. by rewrite lookup_singleton_eq.
Qed.

Lemma top_sentences_primary_witness :
  Dict.wf cat_sentences
  ∧ covers cat_idfs cat_query cat_sentences
  ∧ ∃ mwm ranking,
      sentences_mwm cat_query cat_sentences cat_idfs = Ok mwm
      ∧ top_sentences cat_query cat_sentences cat_idfs 1 = Ok ranking
      ∧ (∀ sentence words, (sentence, words) ∈ cat_sentences →
           NoDup (contained cat_query words)
           ∧ (∀ t, t ∈ contained cat_query words ↔ t ∈ cat_query ∧ t ∈ words)
           ∧ match contained cat_query words with
             | [] => Dict.get sentence mwm = None ∧ sentence ∉ ranking
             | ts =>
                 ∃ qtd,
                   Dict.get sentence mwm
                   = Some (sum_R (idf_of cat_idfs <$> ts), qtd)
             end)
      ∧ (∀ sentence, sentence ∈ ranking →
           ∃ words t,
             (sentence, words) ∈ cat_sentences ∧ t ∈ cat_query ∧ t ∈ words).
Proof.
  split; [exact cat_sentences_wf|]. split; [exact cat_idfs_covers|].
  exact (top_sentences_primary cat_query cat_sentences cat_idfs 1
           cat_sentences_wf cat_idfs_covers).
Defined.

(** *** No division by zero *)

Lemma foldM_not_raise {A S} (e : exn) (body : S → A → result S) (l : list A) :
  (∀ s x, x ∈ l → body s x ≠ Raise e) → ∀ s, foldM body l s ≠ Raise e.
Proof.
  induction l as [|x l IH]; intros Hbody s; [done|].
  rewrite foldM_cons. destruct (body s x) as [s'|e'] eqn:Hb.
  - rewrite bind_Ok. apply IH. intros s0 y Hy. apply Hbody. by right.
  - rewrite bind_Raise. rewrite <- Hb. apply Hbody. left.
Qed.

(** The density is computed under the guard [word in sentence_words], for
    the sentence of the current iteration, so its denominator is the
    length of a list with an element. *)
Lemma score_word_no_zero_division query sentences idfs sentence ws mwm word :
  Dict.get sentence sentences = Some ws →
  score_word query sentences idfs sentence ws mwm word
  ≠ Raise ZeroDivisionError.
Proof.
  intros Hget. unfold score_word, idfs_get.
  destruct (decide (word ∈ ws)) as [Hin|Hout].
  - rewrite bool_decide_eq_true_2 by done.
    destruct (Dict.get sentence mwm) as [[idf qtd]|];
      destruct (idfs !! word) as [v|]; simpl; try done.
    rewrite (query_term_density_get _ _ _ ws); [done | done |].
    intros ->. by apply elem_of_nil in Hin.
  - by rewrite bool_decide_eq_false_2.
Qed.

(** C9. For every table of sentences, also one with sentences whose token
    sequence is empty, [top_sentences] never raises a division by zero:
    whenever a sentence contains a query word, which is the only case in
    which its density is computed, its token sequence is not empty and
    [query_term_density] returns the quotient. *)
Theorem top_sentences_no_zero_division query sentences idfs n :
  Dict.wf sentences →
  top_sentences query sentences idfs n ≠ Raise ZeroDivisionError
  ∧ ∀ sentence sentence_words word,
      (sentence, sentence_words) ∈ sentences →
      word ∈ query → word ∈ sentence_words →
      length sentence_words ≠ 0
      ∧ query_term_density query sentences sentence
        = Ok (INR (length (filter (λ w, w ∈ query) sentence_words))
              / INR (length sentence_words))%R.
Proof.
  intros Hwf. split.
  - unfold top_sentences.
    destruct (sentences_mwm query sentences idfs) as [mwm|e] eqn:Hm; [done|].
    rewrite bind_Raise. intros [= ->]. revert Hm. unfold sentences_mwm.
    apply foldM_not_raise. intros mwm [s ws] Hin.
    apply foldM_not_raise. intros mwm' word _.
    apply score_word_no_zero_division. by apply get_elem.
  - intros sentence ws word Hin _ Hword.
    assert (ws ≠ []) as Hne by (intros ->; by apply elem_of_nil in Hword).
    split; [by destruct ws|].
    apply query_term_density_get; [by apply get_elem | done].
Qed.

Lemma top_sentences_no_zero_division_witness :
  Dict.wf cat_sentences
  ∧ top_sentences cat_query cat_sentences cat_idfs 1 ≠ Raise ZeroDivisionError
  ∧ ∀ sentence sentence_words word,
      (sentence, sentence_words) ∈ cat_sentences →
      word ∈ cat_query → word ∈ sentence_words →
      length sentence_words ≠ 0
      ∧ query_term_density cat_query cat_sentences sentence
        = Ok (INR (length (filter (λ w, w ∈ cat_query) sentence_words))
              / INR (length sentence_words))%R.
Proof.
  split; [exact cat_sentences_wf|].
  exact (top_sentences_no_zero_division cat_query cat_sentences cat_idfs 1
           cat_sentences_wf).
Defined.

(** *** No missing key *)

Lemma compute_idfs_covers query units idfs :
  compute_idfs units = Ok idfs → covers idfs query units.
Proof.
  intros Hrun name words t Hin _ Ht.
  destruct (compute_idfs_table units) as (idfs' & Hrun' & Hocc & _).
  rewrite Hrun in Hrun'. injection Hrun' as <-.
  rewrite (Hocc t); [done|]. by exists name, words.
Qed.

(** C10. With the IDF table that [compute_idfs] builds from the same
    sentence table, every lookup [idfs[word]] of [top_sentences] finds its
    key, since it is made only for a word contained in a sentence, and
    [top_sentences] returns a ranking; this holds for every query, also
    one with tokens that occur in no sentence and have no entry. *)
Theorem top_sentences_no_key_error query sentences n :
  Dict.wf sentences →
  ∃ idfs ranking,
    compute_idfs sentences = Ok idfs
    ∧ (∀ sentence sentence_words word,
         (sentence, sentence_words) ∈ sentences →
         word ∈ query → word ∈ sentence_words →
         ∃ v, idfs_get idfs word = Ok v)
    ∧ (∀ word, word ∈ query → ¬ occurs word sentences →
         idfs_get idfs word = Raise KeyError)
    ∧ top_sentences query sentences idfs n = Ok ranking.
Proof.
  intros Hwf.
  destruct (compute_idfs_table sentences) as (idfs & Hrun & Hocc & Hdom).
  pose proof (compute_idfs_covers query _ _ Hrun) as Hcov.
  exists idfs. eexists. split_and!; [done | | |].
  - intros s ws word Hin Hq Hw. exists (idf_of idfs word).
    apply idfs_get_Some. by apply (Hcov s ws).
  - intros word _ Hno. unfold idfs_get.
    destruct (idfs !! word) as [v|] eqn:Hv; [|done].
    destruct Hno. apply Hdom. by rewrite Hv.
  - by apply top_sentences_scored.
Qed.

Lemma top_sentences_no_key_error_witness :
  Dict.wf cat_sentences
  ∧ ∃ idfs ranking,
      compute_idfs cat_sentences = Ok idfs
      ∧ (∀ sentence sentence_words word,
           (sentence, sentence_words) ∈ cat_sentences →
           word ∈ ({["cat"; "xyzzy"]}%string : gset string) →
           word ∈ sentence_words →
           ∃ v, idfs_get idfs word = Ok v)
      ∧ (∀ word, word ∈ ({["cat"; "xyzzy"]}%string : gset string) →
           ¬ occurs word cat_sentences →
           idfs_get idfs word = Raise KeyError)
      ∧ top_sentences {["cat"; "xyzzy"]}%string cat_sentences idfs 1
        = Ok ranking.
Proof.
  split; [exact cat_sentences_wf|].
  exact (top_sentences_no_key_error {["cat"; "xyzzy"]}%string cat_sentences 1
           cat_sentences_wf).
Defined.

(** ** Document ranking *)

Section dict_loops.
Context {A K V : Type} `{EqDecision K}.

(** A loop that stores one fresh key per item appends the entries in
    order. *)
Lemma fold_left_set (body : list (K * V) → A → list (K * V))
    (kv : A → K * V) (l : list A) (d : list (K * V)) :
  (∀ d x, body d x = Dict.set (kv x).1 (kv x).2 d) →
  NoDup (Dict.keys d ++ ((λ x, (kv x).1) <$> l)) →
  fold_left body l d = d ++ (kv <$> l).
Proof.
  intros Hbody. revert d. induction l as [|x l IH]; intros d Hnd; simpl.
  - by rewrite app_nil_r.
  - rewrite fmap_cons in Hnd. apply NoDup_app in Hnd as Hnd'.
    destruct Hnd' as (_ & Hdisj & _).
    rewrite Hbody, set_fresh by (intros Hin; apply (Hdisj _ Hin); left).
    rewrite IH.
    + rewrite <- app_assoc. simpl. by destruct (kv x).
    + unfold Dict.keys in *. rewrite fmap_app. simpl.
      by rewrite <- app_assoc.
Qed.

Lemma foldM_set (body : list (K * V) → A → result (list (K * V)))
    (kv : A → K * V) (l : list A) (d : list (K * V)) :
  (∀ d x, x ∈ l → body d x = Ok (Dict.set (kv x).1 (kv x).2 d)) →
  NoDup (Dict.keys d ++ ((λ x, (kv x).1) <$> l)) →
  foldM body l d = Ok (d ++ (kv <$> l)).
Proof.
  revert d. induction l as [|x l IH]; intros d Hbody Hnd.
  - simpl. by rewrite app_nil_r.
  - rewrite fmap_cons in Hnd. apply NoDup_app in Hnd as Hnd'.
    destruct Hnd' as (_ & Hdisj & _).
    rewrite foldM_cons, Hbody, bind_Ok by left.
    rewrite set_fresh by (intros Hin; apply (Hdisj _ Hin); left).
    rewrite IH.
    + rewrite <- app_assoc. simpl. by destruct (kv x).
    + intros d' y Hy. apply Hbody. by right.
    + unfold Dict.keys in *. rewrite fmap_app. simpl.
      by rewrite <- app_assoc.
Qed.
End dict_loops.

Section top_files_facts.
Variables (query : gset string) (idfs : gmap string R).
Implicit Types (files : list (string * list string)).

Lemma word_tf_table document :
  fold_left (λ word_tf word,
      let tf := length (filter (λ w, w = word) document) in
      Dict.set word tf word_tf) (elements query) []
  = tf_table query document.
Proof.
  rewrite (fold_left_set _
             (λ q, (q, length (filter (λ w, w = q) document)))).
  - done.
  - done.
  - simpl. rewrite list_fmap_id. apply NoDup_elements.
Qed.

Lemma query_tf_table files :
  Dict.wf files →
  query_tf query files
  = (λ '(filename, document), (filename, tf_table query document)) <$> files.
Proof.
  intros Hwf. unfold query_tf.
  rewrite (fold_left_set _
    (λ '(filename, document), (filename, tf_table query document))).
  - done.
  - intros d [filename document]. simpl. by rewrite word_tf_table.
  - simpl. unfold Dict.wf, Dict.keys in Hwf.
    erewrite list_fmap_ext; [exact Hwf|]. by intros i [??].
Qed.

Lemma py_sum_sum_R (l : list R) : py_sum l = sum_R l.
Proof. unfold py_sum. rewrite fold_left_Rplus. lra. Qed.

(** The terms [tf * idfs[word]] of one document. *)
Lemma terms_covered (q : list string) document :
  (∀ t, t ∈ q → is_Some (idfs !! t)) →
  mapM (λ '(word, tf), v ← idfs_get idfs word; Ok (INR tf * v)%R)
    ((λ q, (q, length (filter (λ w, w = q) document))) <$> q)
  = Ok ((λ q, INR (length (filter (λ w, w = q) document)) * idf_of idfs q)%R
        <$> q).
Proof.
  induction q as [|t q IH]; intros Hcov; [done|].
  rewrite !fmap_cons. simpl.
  rewrite idfs_get_Some by (apply Hcov; left). simpl.
  rewrite IH; [done|]. intros t' Ht'. apply Hcov. by right.
Qed.

(** One query word without an entry makes the comprehension raise. *)
Lemma terms_unknown (word_tf : list (string * nat)) t :
  t ∈ Dict.keys word_tf → idfs !! t = None →
  mapM (λ '(word, tf), v ← idfs_get idfs word; Ok (INR tf * v)%R) word_tf
  = Raise KeyError.
Proof.
  intros Hin Hnone. unfold Dict.keys in Hin.
  induction word_tf as [|[word tf] word_tf IH].
  - by apply elem_of_nil in Hin.
  - rewrite mapM_cons. destruct (idfs !! word) as [v|] eqn:Hv.
    2: { by rewrite idfs_get_None. }
    rewrite idfs_get_Some, bind_Ok by (by rewrite Hv).
    rewrite IH; [done|]. rewrite fmap_cons in Hin.
    apply elem_of_cons in Hin as [Heq|Hin]; [|done]. simpl in Heq.
    congruence.
Qed.

Lemma file_tfidf_table files :
  Dict.wf files →
  (∀ t, t ∈ query → is_Some (idfs !! t)) →
  file_tfidf idfs (query_tf query files) = Ok (tfidf_table query idfs files).
Proof.
  intros Hwf Hcov. rewrite query_tf_table by done. unfold file_tfidf.
  rewrite (foldM_set _ (λ '(filename, word_tf),
    (filename,
     py_sum ((λ '(q, tf), INR tf * idf_of idfs q)%R <$> word_tf)))).
  - simpl. unfold tfidf_table. rewrite <- list_fmap_compose. f_equal.
    apply list_fmap_ext. intros i [filename document] _. simpl. f_equal.
    unfold tf_table. rewrite <- list_fmap_compose.
    by rewrite py_sum_sum_R.
  - intros d [filename word_tf] Hin.
    apply list_elem_of_fmap in Hin as ([fn document] & [= -> ->] & _).
    unfold tf_table. rewrite terms_covered
      by (intros t Ht; apply Hcov; by apply elem_of_elements).
    simpl. by rewrite <- list_fmap_compose.
  - simpl. rewrite <- list_fmap_compose. unfold Dict.wf, Dict.keys in Hwf.
    erewrite list_fmap_ext; [exact Hwf|]. by intros i [??].
Qed.

Lemma top_files_table files n :
  Dict.wf files →
  (∀ t, t ∈ query → is_Some (idfs !! t)) →
  top_files query files idfs n
  = Ok (take n (sorted_reverse snd Rlt (tfidf_table query idfs files)).*1).
Proof.
  intros Hwf Hcov. unfold top_files. by rewrite file_tfidf_table.
Qed.

(** With a corpus that is not empty, a query token without an entry in
    the IDF table makes [top_files] raise at the first file. *)
Lemma top_files_missing_entry files n t :
  Dict.wf files → files ≠ [] → t ∈ query → idfs !! t = None →
  top_files query files idfs n = Raise KeyError.
Proof.
  intros Hwf Hne Ht Hnone. unfold top_files.
  rewrite query_tf_table by done.
  destruct files as [|[filename document] files]; [done|].
  rewrite fmap_cons. unfold file_tfidf. rewrite foldM_cons.
  rewrite (terms_unknown _ t); [done | | done].
  unfold Dict.keys, tf_table. rewrite <- list_fmap_compose. simpl.
  rewrite list_fmap_id. by apply elem_of_elements.
Qed.
End top_files_facts.

(** C1. The claim is that [top_files] scores a query token without an
    entry in the IDF table as zero and still returns a ranking.  On the
    corpus [dogs_cats] with the IDF table [compute_idfs] builds for it and
    the query "birds", a token of no document, the lookup [idfs[word]]
    fails and [top_files] raises [KeyError] instead. *)
Theorem top_files_unknown_token_raises :
  ∃ idfs,
    compute_idfs dogs_cats = Ok idfs
    ∧ idfs !! "birds"%string = None
    ∧ top_files birds_query dogs_cats idfs 1 = Raise KeyError.
Proof.
  destruct (compute_idfs_table dogs_cats) as (idfs & Hrun & _ & Hdom).
  assert (idfs !! "birds"%string = None) as Hnone.
  { destruct (idfs !! "birds"%string) as [v|] eqn:Hv; [|done].
    destruct (Hdom "birds"%string) as (name & text & Hin & Ht); [by rewrite Hv|].
    assert (Forall (λ unit, "birds"%string ∉ unit.2) dogs_cats) as Hall
      by (apply (bool_decide_unpack _); by vm_compute).
    rewrite Forall_forall in Hall. by destruct (Hall _ Hin). }
  exists idfs. split_and!; [done | done |].
  apply (top_files_missing_entry _ _ _ _ "birds"%string); [| done | | done].
  - unfold Dict.wf. apply (bool_decide_unpack _). by vm_compute.
  - by apply elem_of_singleton.
Qed.



(** ** The scenarios of the specification, run on the model *)

Lemma ln_2_pos : (0 < ln 2)%R.
Proof. rewrite <- ln_1. apply ln_increasing; lra. Qed.

(** Corpus A "Dogs bark loudly." / B "Cats purr softly.", query "cats":
    B scores [1 * ln 2], A scores 0, and B overtakes A in the sort. *)
Example top_files_cats :
  ∃ idfs,
    compute_idfs dogs_cats = Ok idfs
    ∧ idfs !! "cats"%string = Some (ln 2)
    ∧ top_files cats_query dogs_cats idfs 1 = Ok ["B"%string].
Proof.
  destruct (compute_idfs_table dogs_cats) as (idfs & Hrun & Hocc & _).
  assert (idfs !! "cats"%string = Some (ln 2)) as Hcats.
  { rewrite Hocc.
    - unfold spec_idf. do 2 f_equal.
      assert (units_containing "cats"%string dogs_cats = 1) as ->
        by (by vm_compute).
      simpl. lra.
    - exists "B"%string, ["cats"; "purr"; "softly"]%string.
      split; apply (bool_decide_unpack _); by vm_compute. }
  exists idfs. split_and!; [done | done |].
  rewrite top_files_table.
  - unfold tfidf_table, spec_tfidf, cats_query, dogs_cats.
    rewrite elements_singleton. simpl. unfold idf_of. rewrite Hcats. simpl.
    rewrite decide_True by (pose proof ln_2_pos; lra). done.
  - unfold Dict.wf. apply (bool_decide_unpack _). by vm_compute.
  - intros t Ht%elem_of_singleton. subst t. by rewrite Hcats.
Qed.

(** Corpus A "The cat sat." / B "The cat and the dog played.", query
    "cat": the IDF of "cat" is [ln (2/2) = 0], both documents score 0 and
    the stable sort returns the first of them. *)
Example top_files_cat_tie :
  ∃ idfs,
    compute_idfs cat_files = Ok idfs
    ∧ idfs !! "cat"%string = Some 0%R
    ∧ top_files cat_query cat_files idfs 1 = Ok ["A"%string].
Proof.
  destruct (compute_idfs_table cat_files) as (idfs & Hrun & Hocc & _).
  assert (idfs !! "cat"%string = Some 0%R) as Hcat.
  { rewrite Hocc.
    - unfold spec_idf. f_equal.
      assert (units_containing "cat"%string cat_files = 2) as ->
        by (by vm_compute).
      simpl. rewrite Rdiv_diag by lra. apply ln_1.
    - exists "A"%string, ["cat"; "sat"]%string.
      split; apply (bool_decide_unpack _); by vm_compute. }
  exists idfs. split_and!; [done | done |].
  rewrite top_files_table.
  - unfold tfidf_table, spec_tfidf, cat_query, cat_files.
    rewrite elements_singleton. simpl. unfold idf_of. rewrite Hcat. simpl.
    rewrite decide_False by lra. done.
  - unfold Dict.wf. apply (bool_decide_unpack _). by vm_compute.
  - intros t Ht%elem_of_singleton. subst t. by rewrite Hcat.
Qed.

(** Two sentences with the same summed IDF: the shorter one, of density 1
    against 1/3, is returned although it comes second in the table, and
    the sentence without tokens is not scored. *)
Example top_sentences_shorter_first :
  top_sentences cat_query cat_sentences cat_idfs 1 = Ok ["A cat."%string].
Proof.
  rewrite top_sentences_scored
    by (apply cat_sentences_wf || apply cat_idfs_covers).
  unfold scored, contained, spec_primary, spec_density, contained,
    cat_query, cat_sentences.
  rewrite elements_singleton. simpl.
  assert (length (filter (λ w : string, w ∈ ({["cat"]} : gset string))
                    ["cat"; "sat"; "mat"]) = 1)%string as ->
    by (by vm_compute).
  assert (length (filter (λ w : string, w ∈ ({["cat"]} : gset string))
                    ["cat"]) = 1)%string as -> by (by vm_compute).
  rewrite decide_True; [done|].
  unfold tuple_lt. simpl. lra.
Qed.

(** * Further properties of the scoring core *)

(** ** IDF values *)

Lemma ln_le_mono (x y : R) : (0 < x)%R → (x <= y)%R → (ln x <= ln y)%R.
Proof.
  intros Hx [Hlt| ->]; [|lra]. left. by apply ln_increasing.
Qed.

Lemma occurs_units_containing t documents :
  occurs t documents ↔ 0 < units_containing t documents.
Proof.
  split; [apply units_containing_pos|].
  unfold units_containing. intros Hpos.
  destruct (filter (λ unit, t ∈ unit.2) documents) as [|[name text] l] eqn:Hf;
    [simpl in Hpos; lia|].
  assert ((name, text) ∈ filter (λ unit, t ∈ unit.2) documents) as Hin
    by (rewrite Hf; left).
  apply list_elem_of_filter in Hin as [Ht Hin]. by exists name, text.
Qed.

Lemma div_units_ge_1 (N d : nat) : 0 < d → d ≤ N → (1 <= INR N / INR d)%R.
Proof.
  intros Hd Hle. apply lt_0_INR in Hd as Hd'. apply le_INR in Hle.
  apply (Rmult_le_reg_r (INR d)); [done|].
  unfold Rdiv. rewrite Rmult_assoc, Rinv_l by lra. lra.
Qed.

(** X1. [compute_word_idf] returns [ln (N / d)] for a word that occurs in
    some document and raises a division by zero for every other word,
    whatever the corpus; the logarithm never fails. *)
Theorem compute_word_idf_cases word documents :
  (occurs word documents →
   compute_word_idf word documents
   = Ok (ln (INR (length documents) / INR (units_containing word documents))))
  ∧ (¬ occurs word documents →
     compute_word_idf word documents = Raise ZeroDivisionError)
  ∧ compute_word_idf word documents ≠ Raise ValueError
  ∧ compute_word_idf word documents ≠ Raise KeyError.
Proof.
  assert (Habsent : ¬ occurs word documents →
                    compute_word_idf word documents = Raise ZeroDivisionError).
  { intros Hno. unfold compute_word_idf, py_truediv.
    rewrite num_documents_with_word_spec, decide_True; [done|].
    rewrite occurs_units_containing in Hno. lia. }
  split; [apply compute_word_idf_occurs|]. split; [exact Habsent|].
  destruct (decide (0 < units_containing word documents)) as [Hpos|Hz].
  - apply occurs_units_containing in Hpos.
    rewrite compute_word_idf_occurs by done. done.
  - rewrite Habsent by (by rewrite occurs_units_containing). done.
Qed.

(** X2. Every value of the table [compute_idfs] returns lies between 0
    and [ln N], and it is 0 exactly for the tokens that every unit
    contains. *)
Theorem compute_idfs_range documents :
  ∃ idfs,
    compute_idfs documents = Ok idfs
    ∧ ∀ t v, idfs !! t = Some v →
        (0 <= v <= ln (INR (length documents)))%R
        ∧ (v = 0%R ↔ units_containing t documents = length documents).
Proof.
  destruct (compute_idfs_table documents) as (idfs & Hrun & Hocc & Hdom).
  exists idfs. split; [done|]. intros t v Hv.
  assert (occurs t documents) as Ht by (apply Hdom; by rewrite Hv).
  rewrite (Hocc t Ht) in Hv. injection Hv as <-. unfold spec_idf.
  pose proof (units_containing_pos _ _ Ht) as Hpos.
  pose proof (units_containing_le t documents) as Hle.
  pose proof (div_units_ge_1 _ _ Hpos Hle) as Hge.
  apply lt_0_INR in Hpos as Hd. apply le_INR in Hle as HdN.
  split; [split|split].
  - rewrite <- ln_1. apply ln_le_mono; lra.
  - apply ln_le_mono; [lra|].
    apply (Rmult_le_reg_r (INR (units_containing t documents))); [done|].
    unfold Rdiv. rewrite Rmult_assoc, Rinv_l by lra.
    assert (1 <= INR (units_containing t documents))%R
      by (apply (le_INR 1); lia).
    nra.
  - intros Hz. rewrite <- ln_1 in Hz. apply ln_inv in Hz; [|lra|lra].
    symmetry. apply INR_eq.
    apply (Rmult_eq_reg_r (/ INR (units_containing t documents)));
      [|apply Rinv_neq_0_compat; lra].
    rewrite Rinv_r by lra. exact Hz.
  - intros ->. rewrite Rdiv_diag by lra. apply ln_1.
Qed.

(** X3. In the table [compute_idfs] returns a token contained in fewer
    units never has the smaller value, and has a strictly greater one when
    it is contained in strictly fewer units. *)
Theorem compute_idfs_antitone documents :
  ∃ idfs,
    compute_idfs documents = Ok idfs
    ∧ ∀ t1 t2 v1 v2,
        idfs !! t1 = Some v1 → idfs !! t2 = Some v2 →
        (units_containing t1 documents ≤ units_containing t2 documents →
         (v2 <= v1)%R)
        ∧ (units_containing t1 documents < units_containing t2 documents →
           (v2 < v1)%R).
Proof.
  destruct (compute_idfs_table documents) as (idfs & Hrun & Hocc & Hdom).
  exists idfs. split; [done|]. intros t1 t2 v1 v2 Hv1 Hv2.
  assert (occurs t1 documents) as Ht1 by (apply Hdom; by rewrite Hv1).
  assert (occurs t2 documents) as Ht2 by (apply Hdom; by rewrite Hv2).
  rewrite (Hocc t1 Ht1) in Hv1. rewrite (Hocc t2 Ht2) in Hv2.
  injection Hv1 as <-. injection Hv2 as <-. unfold spec_idf.
  pose proof (units_containing_pos _ _ Ht1) as Hp1.
  pose proof (units_containing_pos _ _ Ht2) as Hp2.
  pose proof (units_containing_le t2 documents) as Hle2.
  apply lt_0_INR in Hp1 as Hd1. apply lt_0_INR in Hp2 as Hd2.
  assert (0 < INR (length documents))%R as HN by (apply lt_0_INR; lia).
  split.
  - intros Hle. apply ln_le_mono; [by apply Rdiv_lt_0_compat|].
    apply Rmult_le_compat_l; [lra|].
    apply Rinv_le_contravar; [done | by apply le_INR].
  - intros Hlt. apply ln_increasing; [by apply Rdiv_lt_0_compat|].
    apply Rmult_lt_compat_l; [done|].
    apply Rinv_0_lt_contravar; [done | by apply lt_INR].
Qed.

(** ** What the IDF table depends on *)

(** The table is determined by the number of units and, per token, the
    number of units containing it. *)
Lemma compute_idfs_ext documents documents' :
  length documents = length documents' →
  (∀ t, units_containing t documents = units_containing t documents') →
  compute_idfs documents = compute_idfs documents'.
Proof.
  intros Hlen Hunits.
  destruct (compute_idfs_table documents) as (idfs & -> & Hocc & Hdom).
  destruct (compute_idfs_table documents') as (idfs' & -> & Hocc' & Hdom').
  f_equal. apply map_eq. intros t.
  destruct (decide (0 < units_containing t documents)) as [Hpos|Hz].
  - rewrite Hocc by (by apply occurs_units_containing).
    rewrite Hocc' by (apply occurs_units_containing; by rewrite <- Hunits).
    unfold spec_idf. by rewrite Hlen, Hunits.
  - destruct (idfs !! t) as [v|] eqn:Hv.
    { destruct Hz. apply occurs_units_containing, Hdom. by rewrite Hv. }
    destruct (idfs' !! t) as [v'|] eqn:Hv'; [|done].
    destruct Hz. rewrite Hunits.
    apply occurs_units_containing, Hdom'. by rewrite Hv'.
Qed.

(** X4. The IDF table does not depend on the order in which the corpus
    holds its units. *)
Theorem compute_idfs_permutation documents documents' :
  documents ≡ₚ documents' →
  compute_idfs documents = compute_idfs documents'.
Proof.
  intros Hperm. apply compute_idfs_ext.
  - by rewrite Hperm.
  - intros t. unfold units_containing. by rewrite Hperm.
Qed.

Lemma compute_idfs_permutation_witness :
  dogs_cats ≡ₚ cats_dogs ∧ compute_idfs dogs_cats = compute_idfs cats_dogs.
Proof.
  assert (dogs_cats ≡ₚ cats_dogs) as Hperm by apply Permutation_swap.
  split; [exact Hperm | exact (compute_idfs_permutation _ _ Hperm)].
Defined.

(** X5. The IDF table depends on a unit only through the set of its
    tokens: the unit names, the order of the tokens and their repetitions
    do not matter. *)
Theorem compute_idfs_token_sets documents documents' :
  Forall2 (λ unit unit', ∀ t, t ∈ unit.2 ↔ t ∈ unit'.2) documents documents' →
  compute_idfs documents = compute_idfs documents'.
Proof.
  intros Hsets. apply compute_idfs_ext.
  - by eapply Forall2_length.
  - intros t. unfold units_containing.
    induction Hsets as [|unit unit' documents documents' Hunit _ IH]; [done|].
    rewrite !filter_cons.
    destruct (decide (t ∈ unit.2)) as [Hin|Hout].
    + rewrite decide_True by (by apply Hunit). simpl. by rewrite IH.
    + rewrite decide_False by (by rewrite <- Hunit). done.
Qed.

Lemma compute_idfs_token_sets_witness :
  Forall2 (λ unit unit', ∀ t, t ∈ unit.2 ↔ t ∈ unit'.2)
    dogs_cats dogs_cats_shuffled
  ∧ compute_idfs dogs_cats = compute_idfs dogs_cats_shuffled.
Proof.
  assert (Forall2 (λ unit unit' : string * list string,
                     ∀ t, t ∈ unit.2 ↔ t ∈ unit'.2)
            dogs_cats dogs_cats_shuffled) as Hsets.
  { constructor; [|constructor; [|constructor]];
      simpl; intros t; rewrite !elem_of_cons; tauto. }
  split; [exact Hsets | exact (compute_idfs_token_sets _ _ Hsets)].
Defined.

(** ** When the rankers fail *)

Lemma foldM_Ok_inv {A S} (body : S → A → result S) (l : list A) (s s' : S) :
  foldM body l s = Ok s' → ∀ x, x ∈ l → ∃ s1 s2, body s1 x = Ok s2.
Proof.
  revert s. induction l as [|y l IH]; intros s Hrun x Hx.
  - by apply elem_of_nil in Hx.
  - rewrite foldM_cons in Hrun. destruct (body s y) as [s1|e] eqn:Hb; [|done].
    rewrite bind_Ok in Hrun. apply elem_of_cons in Hx as [->|Hx]; [eauto|].
    by apply (IH s1).
Qed.

Lemma foldM_Raise_inv {A S} (body : S → A → result S) (l : list A) (s : S) e :
  foldM body l s = Raise e → ∃ s1 x, x ∈ l ∧ body s1 x = Raise e.
Proof.
  revert s. induction l as [|y l IH]; intros s Hrun; [done|].
  rewrite foldM_cons in Hrun. destruct (body s y) as [s1|e'] eqn:Hb.
  - rewrite bind_Ok in Hrun. destruct (IH s1 Hrun) as (s2 & x & Hx & Hbx).
    exists s2, x. split; [by right | done].
  - rewrite bind_Raise in Hrun. injection Hrun as ->.
    exists s, y. split; [left | done].
Qed.

(** X6. [query_term_density] returns a value exactly for a sentence that
    is a key of the table with at least one token; for a sentence that is
    not a key it raises [KeyError] and for a sentence without tokens it
    divides by zero. *)
Theorem query_term_density_outcome query sentences sentence :
  ((∃ qtd, query_term_density query sentences sentence = Ok qtd)
   ↔ ∃ sentence_words,
       Dict.get sentence sentences = Some sentence_words
       ∧ sentence_words ≠ [])
  ∧ (sentence ∉ Dict.keys sentences →
     query_term_density query sentences sentence = Raise KeyError)
  ∧ (Dict.get sentence sentences = Some [] →
     query_term_density query sentences sentence = Raise ZeroDivisionError).
Proof.
  split; [split|split].
  - intros [qtd Hq]. unfold query_term_density in Hq.
    destruct (Dict.get sentence sentences) as [ws|]; [|done].
    exists ws. split; [done|]. intros ->. discriminate.
  - intros (ws & Hget & Hne). rewrite (query_term_density_get _ _ _ ws); eauto.
  - intros Hout%get_None. unfold query_term_density. by rewrite Hout.
  - intros Hget. unfold query_term_density. by rewrite Hget.
Qed.

(** X7. For a corpus of uniquely named documents [top_files] returns a
    ranking exactly when the corpus is empty or the IDF table has an entry
    for every query token, whether or not the token occurs in a document;
    in every other case it raises [KeyError], and it raises nothing
    else. *)
Theorem top_files_outcome query files idfs n :
  Dict.wf files →
  ((∃ ranking, top_files query files idfs n = Ok ranking)
   ↔ files = [] ∨ ∀ t, t ∈ query → is_Some (idfs !! t))
  ∧ (∀ e, top_files query files idfs n = Raise e → e = KeyError).
Proof.
  intros Hwf.
  assert (Hok : files = [] ∨ (∀ t, t ∈ query → is_Some (idfs !! t)) →
                ∃ ranking, top_files query files idfs n = Ok ranking).
  { intros [->|Hcov]; [by eexists|]. rewrite top_files_table by done. eauto. }
  split; [split; [|exact Hok]|].
  - intros [ranking Hrun]. destruct files as [|file files]; [by left|].
    right. intros t Ht. destruct (idfs !! t) as [v|] eqn:Hv; [done|].
    rewrite (top_files_missing_entry _ _ _ _ t) in Hrun; done.
  - intros e Hrun. destruct files as [|file files]; [done|].
    destruct (decide (Forall (λ t, is_Some (idfs !! t)) (elements query)))
      as [Hall|Hex].
    + destruct Hok as [ranking Hr]; [|congruence].
      right. intros t Ht%elem_of_elements. rewrite Forall_forall in Hall. auto.
    + apply not_Forall_Exists in Hex; [|apply _].
      apply Exists_exists in Hex as (t & Ht%elem_of_elements & Hnone).
      rewrite (top_files_missing_entry _ _ _ _ t) in Hrun; try done.
      * by injection Hrun as <-.
      * simpl in Hnone. by apply eq_None_not_Some.
Qed.

Lemma top_files_outcome_witness :
  Dict.wf dogs_cats
  ∧ ((∃ ranking, top_files cats_purr_query dogs_cats partial_idfs 1 = Ok ranking)
     ↔ dogs_cats = [] ∨ ∀ t, t ∈ cats_purr_query → is_Some (partial_idfs !! t))
  ∧ (∀ e, top_files cats_purr_query dogs_cats partial_idfs 1 = Raise e →
          e = KeyError).
Proof.
  assert (Dict.wf dogs_cats) as Hwf
    by (unfold Dict.wf; apply (bool_decide_unpack _); by vm_compute).
  split; [exact Hwf|].
  exact (top_files_outcome cats_purr_query dogs_cats partial_idfs 1 Hwf).
Defined.

Lemma score_word_Ok_inv query sentences idfs sentence ws mwm mwm' word :
  word ∈ ws →
  score_word query sentences idfs sentence ws mwm word = Ok mwm' →
  is_Some (idfs !! word).
Proof.
  intros Hin. unfold score_word, idfs_get.
  rewrite bool_decide_eq_true_2 by done.
  destruct (idfs !! word) as [v|]; [done|].
  by destruct (Dict.get sentence mwm) as [[idf qtd]|].
Qed.

Lemma score_word_Raise_inv query sentences idfs sentence ws mwm word e :
  Dict.get sentence sentences = Some ws →
  score_word query sentences idfs sentence ws mwm word = Raise e →
  e = KeyError.
Proof.
  intros Hget. unfold score_word, idfs_get.
  destruct (decide (word ∈ ws)) as [Hin|Hout].
  - rewrite bool_decide_eq_true_2 by done.
    destruct (Dict.get sentence mwm) as [[idf qtd]|];
      destruct (idfs !! word) as [v|]; simpl; try congruence.
    rewrite (query_term_density_get _ _ _ ws); [done | done |].
    intros ->. by apply elem_of_nil in Hin.
  - by rewrite bool_decide_eq_false_2.
Qed.

(** X8. For a table of unique sentences [top_sentences] returns a ranking
    exactly when the IDF table has an entry for every query token that
    some sentence contains; otherwise it raises [KeyError], and it raises
    nothing else.  Query tokens that no sentence contains need no entry. *)
Theorem top_sentences_outcome query sentences idfs n :
  Dict.wf sentences →
  ((∃ ranking, top_sentences query sentences idfs n = Ok ranking)
   ↔ ∀ sentence sentence_words word,
       (sentence, sentence_words) ∈ sentences →
       word ∈ query → word ∈ sentence_words → is_Some (idfs !! word))
  ∧ (∀ e, top_sentences query sentences idfs n = Raise e → e = KeyError).
Proof.
  intros Hwf. split; [split|].
  - intros [ranking Hrun] s ws word Hin Hq Hw. unfold top_sentences in Hrun.
    destruct (sentences_mwm query sentences idfs) as [mwm|e] eqn:Hm; [|done].
    unfold sentences_mwm in Hm.
    destruct (foldM_Ok_inv _ _ _ _ Hm _ Hin) as (m1 & m2 & Hinner).
    simpl in Hinner. apply elem_of_elements in Hq.
    destruct (foldM_Ok_inv _ _ _ _ Hinner _ Hq) as (m3 & m4 & Hword).
    by eapply score_word_Ok_inv.
  - intros Hcov. rewrite top_sentences_scored by done. eauto.
  - intros e Hrun. unfold top_sentences in Hrun.
    destruct (sentences_mwm query sentences idfs) as [mwm|e'] eqn:Hm; [done|].
    rewrite bind_Raise in Hrun. injection Hrun as ->.
    unfold sentences_mwm in Hm.
    apply foldM_Raise_inv in Hm as (m1 & [s ws] & Hin & Hinner).
    apply foldM_Raise_inv in Hinner as (m2 & word & _ & Hword).
    eapply score_word_Raise_inv; [|exact Hword]. by apply get_elem.
Qed.

Lemma top_sentences_outcome_witness :
  Dict.wf cat_sentences
  ∧ ((∃ ranking, top_sentences cat_query cat_sentences cat_idfs 1 = Ok ranking)
     ↔ ∀ sentence sentence_words word,
         (sentence, sentence_words) ∈ cat_sentences →
         word ∈ cat_query → word ∈ sentence_words →
         is_Some (cat_idfs !! word))
  ∧ (∀ e, top_sentences cat_query cat_sentences cat_idfs 1 = Raise e →
          e = KeyError).
Proof.
  split; [exact cat_sentences_wf|].
  exact (top_sentences_outcome cat_query cat_sentences cat_idfs 1
           cat_sentences_wf).
Defined.

(** ** Stability of the sort *)

Section stable_facts.
Context {A B : Type} (key : A → B) (lt : B → B → Prop).
Context `{∀ x y, Decision (lt x y)}.

Lemma insert_reverse_sublist x l : l `sublist_of` insert_reverse key lt x l.
Proof.
  induction l as [|y l IH]; simpl; [apply sublist_nil_l|].
  destruct (decide (lt (key x) (key y))).
  - by apply sublist_skip.
  - by apply sublist_cons.
Qed.

(** An inserted item stays in front of the items it is not smaller than. *)
Lemma insert_reverse_before x y l :
  y ∈ l → ¬ lt (key x) (key y) → [x; y] `sublist_of` insert_reverse key lt x l.
Proof.
  intros Hy Hge. induction l as [|z l IH]; [by apply elem_of_nil in Hy|].
  simpl. destruct (decide (lt (key x) (key z))) as [Hlt|Hnlt].
  - apply sublist_cons, IH.
    apply elem_of_cons in Hy as [->|Hy]; [done | done].
  - apply sublist_skip. by apply singleton_sublist_l.
Qed.

(** Two items keep their order unless the later one has the greater key. *)
Lemma sorted_reverse_stable a b l :
  [a; b] `sublist_of` l → ¬ lt (key a) (key b) →
  [a; b] `sublist_of` sorted_reverse key lt l.
Proof.
  intros Hab Hge. induction l as [|x l IH].
  - apply sublist_nil_r in Hab. discriminate.
  - simpl. apply sublist_cons_r in Hab as [Hab|(l' & [= <- <-] & Hb)].
    + etrans; [by apply IH | apply insert_reverse_sublist].
    + apply insert_reverse_before; [|done].
      apply singleton_sublist_l in Hb.
      by rewrite sorted_reverse_perm.
Qed.

(** Items whose keys are all equivalent are not moved. *)
Lemma sorted_reverse_ties l :
  (∀ a b, a ∈ l → b ∈ l → ¬ lt (key a) (key b)) →
  sorted_reverse key lt l = l.
Proof.
  induction l as [|x l IH]; intros Hties; [done|].
  simpl. rewrite IH by (intros a b Ha Hb; apply Hties; by right).
  destruct l as [|y l]; [done|]. simpl.
  rewrite decide_False; [done|]. apply Hties; [left | right; left].
Qed.
End stable_facts.

(** ** The full document ranking *)

Lemma keys_tfidf_table query idfs files :
  (tfidf_table query idfs files).*1 = Dict.keys files.
Proof.
  unfold tfidf_table, Dict.keys. rewrite <- list_fmap_compose.
  apply list_fmap_ext. by intros i [??].
Qed.

(** X10. With an empty query every document scores 0 and no IDF lookup is
    made: [top_files] returns the first [n] document names in corpus
    order, whatever the IDF table. *)
Theorem top_files_empty_query files idfs n :
  Dict.wf files →
  top_files ∅ files idfs n = Ok (take n (Dict.keys files)).
Proof.
  intros Hwf. rewrite top_files_table; [|done|].
  - rewrite sorted_reverse_ties; [by rewrite keys_tfidf_table|].
    intros [f1 s1] [f2 s2] H1 H2. unfold tfidf_table in H1, H2.
    apply list_elem_of_fmap in H1 as ([? d1] & [= -> ->] & _).
    apply list_elem_of_fmap in H2 as ([? d2] & [= -> ->] & _).
    unfold spec_tfidf. rewrite elements_empty. simpl. lra.
  - intros t Ht. by apply not_elem_of_empty in Ht.
Qed.

Lemma top_files_empty_query_witness :
  Dict.wf dogs_cats
  ∧ top_files ∅ dogs_cats ∅ 1 = Ok (take 1 (Dict.keys dogs_cats)).
Proof.
  assert (Dict.wf dogs_cats) as Hwf
    by (unfold Dict.wf; apply (bool_decide_unpack _); by vm_compute).
  split; [exact Hwf | exact (top_files_empty_query dogs_cats ∅ 1 Hwf)].
Defined.

(** ** The full sentence ranking *)

Section scored_facts.
Variables (query : gset string) (idfs : gmap string R).
Implicit Types (sentences : list (string * list string)).

Lemma scored_cons sentence words sentences :
  scored query idfs ((sentence, words) :: sentences)
  = match contained query words with
    | [] => scored query idfs sentences
    | _ :: _ =>
        (sentence, (spec_primary query idfs words, spec_density query words))
        :: scored query idfs sentences
    end.
Proof. unfold scored. simpl. by destruct (contained query words). Qed.

Lemma scored_sublist sentences sentences' :
  sentences `sublist_of` sentences' →
  scored query idfs sentences `sublist_of` scored query idfs sentences'.
Proof.
  induction 1 as [|[s ws] l1 l2 _ IH|[s ws] l1 l2 _ IH]; [done| |].
  - rewrite !scored_cons. destruct (contained query ws); [done|].
    by apply sublist_skip.
  - rewrite scored_cons. destruct (contained query ws); [done|].
    by apply sublist_cons.
Qed.

Lemma keys_scored_filter sentences :
  Dict.keys (scored query idfs sentences)
  = Dict.keys (filter (λ unit, contained query unit.2 ≠ []) sentences).
Proof.
  unfold Dict.keys. induction sentences as [|[s ws] sentences IH]; [done|].
  rewrite scored_cons, filter_cons. simpl.
  destruct (contained query ws) as [|t ts].
  - by rewrite decide_False by (by intros []).
  - rewrite decide_True by done. rewrite !fmap_cons. simpl. by rewrite IH.
Qed.
End scored_facts.

Lemma scored_no_match query idfs sentences :
  (∀ sentence sentence_words t,
     (sentence, sentence_words) ∈ sentences → t ∈ query →
     t ∉ sentence_words) →
  scored query idfs sentences = [].
Proof.
  intros Hno. induction sentences as [|[s ws] sentences IH]; [done|].
  rewrite scored_cons.
  destruct (contained query ws) as [|t ts] eqn:Hc.
  - apply IH. intros s' ws' t' Hin. apply (Hno s' ws' t'). by right.
  - assert (t ∈ contained query ws) as Ht by (rewrite Hc; left).
    apply contained_spec in Ht as [Hq Hw].
    destruct (Hno s ws t); [left | done | done].
Qed.

(** X12. When no sentence contains a query token, in particular for an
    empty query or an empty table, [top_sentences] returns the empty list
    and makes no IDF lookup: the result does not depend on the table. *)
Theorem top_sentences_no_match query sentences idfs n :
  Dict.wf sentences →
  (∀ sentence sentence_words t,
     (sentence, sentence_words) ∈ sentences → t ∈ query →
     t ∉ sentence_words) →
  top_sentences query sentences idfs n = Ok [].
Proof.
  intros Hwf Hno. rewrite top_sentences_scored; [|done|].
  - rewrite scored_no_match by done. by destruct n.
  - intros s ws t Hin Hq Hw. by destruct (Hno s ws t).
Qed.

Lemma top_sentences_no_match_witness :
  Dict.wf cat_sentences
  ∧ (∀ sentence sentence_words t,
       (sentence, sentence_words) ∈ cat_sentences → t ∈ birds_query →
       t ∉ sentence_words)
  ∧ top_sentences birds_query cat_sentences ∅ 1 = Ok [].
Proof.
  assert (∀ sentence sentence_words t,
            (sentence, sentence_words) ∈ cat_sentences → t ∈ birds_query →
            t ∉ sentence_words) as Hno.
  { intros s ws t Hin Ht%elem_of_singleton. subst t.
    assert (Forall (λ unit, "birds"%string ∉ unit.2) cat_sentences) as Hall
      by (apply (bool_decide_unpack _); by vm_compute).
    rewrite Forall_forall in Hall. apply (Hall _ Hin). }
  split; [exact cat_sentences_wf|]. split; [exact Hno|].
  exact (top_sentences_no_match birds_query cat_sentences ∅ 1
           cat_sentences_wf Hno).
Defined.

(** ** Storing into a dictionary *)

Section dict_set_facts.
Context {K V : Type} `{EqDecision K}.
Implicit Types (k : K) (v : V) (d : list (K * V)).

Lemma keys_set_elem k' k v d :
  k' ∈ Dict.keys (Dict.set k v d) ↔ k' = k ∨ k' ∈ Dict.keys d.
Proof.
  unfold Dict.keys. induction d as [|[k1 v1] d IH]; simpl.
  - rewrite list_elem_of_singleton. split; [by left | intros [?|?%elem_of_nil]; done].
  - destruct (decide (k = k1)) as [->|Hne]; simpl.
    + rewrite elem_of_cons. tauto.
    + rewrite !elem_of_cons, IH. tauto.
Qed.

Lemma wf_set k v d : Dict.wf d → Dict.wf (Dict.set k v d).
Proof.
  unfold Dict.wf. induction d as [|[k1 v1] d IH]; simpl.
  - intros _. apply NoDup_singleton.
  - unfold Dict.keys. simpl. rewrite NoDup_cons. intros [Hk1 Hnd].
    destruct (decide (k = k1)) as [->|Hne]; simpl.
    + by apply NoDup_cons.
    + apply NoDup_cons. split; [|by apply IH].
      intros Hin. apply (keys_set_elem k1 k v d) in Hin as [?|?]; done.
Qed.

Lemma elem_of_set_inv k' v' k v d :
  (k', v') ∈ Dict.set k v d → (k' = k ∧ v' = v) ∨ (k', v') ∈ d.
Proof.
  induction d as [|[k1 v1] d IH]; simpl.
  - intros [= -> ->]%list_elem_of_singleton. by left.
  - destruct (decide (k = k1)) as [->|Hne].
    + intros [[= -> ->]|Hin]%elem_of_cons; [by left|]. right. by right.
    + intros [[= -> ->]|Hin]%elem_of_cons; [right; left|].
      destruct (IH Hin) as [?|?]; [by left|]. right. by right.
Qed.
End dict_set_facts.

(** ** The query cycle *)

Section query_cycle_facts.
Variables (lower : string → string) (isalpha : string → bool).
Variables (word_tokenize : string → list string) (stopwords : list string).
Variable sent_tokenize : string → list string.

Local Notation "'tok'" := (tokenize lower isalpha word_tokenize stopwords).
Local Notation "'good'" :=
  (sentence_table lower isalpha word_tokenize stopwords).

Lemma files_get_key files filename :
  filename ∈ Dict.keys files →
  ∃ text, Dict.get filename files = Some text
          ∧ files_get files filename = Ok text.
Proof.
  intros Hin. unfold files_get.
  destruct (Dict.get filename files) as [text|] eqn:Hget; [eauto|].
  by apply get_None in Hget.
Qed.

(** The sentences of one passage. *)
Lemma store_sentences (ss : list string) d :
  good d →
  good (fold_left (λ sentences sentence,
          let tokens := tok sentence in
          match tokens with
          | [] => sentences
          | _ :: _ => Dict.set sentence tokens sentences
          end) ss d)
  ∧ ∀ s, s ∈ Dict.keys (fold_left (λ sentences sentence,
            let tokens := tok sentence in
            match tokens with
            | [] => sentences
            | _ :: _ => Dict.set sentence tokens sentences
            end) ss d)
         ↔ s ∈ Dict.keys d ∨ (s ∈ ss ∧ tok s ≠ []).
Proof.
  revert d. induction ss as [|x ss IH]; intros d Hd; simpl.
  - split; [done|]. intros s. split; [by left|].
    intros [?|[?%elem_of_nil ?]]; done.
  - destruct (tok x) as [|t ts] eqn:Hx.
    + destruct (IH d Hd) as [Hgood Hkeys]. split; [done|].
      intros s. rewrite Hkeys, elem_of_cons. split; [tauto|].
      intros [?|[[->|?] ?]]; [tauto | done | tauto].
    + assert (good (Dict.set x (t :: ts) d)) as Hd'.
      { destruct Hd as [Hwf Htok]. split; [by apply wf_set|].
        intros s toks [[-> ->]|Hin]%elem_of_set_inv; [by rewrite Hx|].
        by apply Htok. }
      destruct (IH _ Hd') as [Hgood Hkeys]. split; [done|].
      intros s. rewrite Hkeys, keys_set_elem, elem_of_cons. split.
      * intros [[->|?]|[? ?]]; [|tauto|tauto].
        right. split; [by left | by rewrite Hx].
      * intros [?|[[->|?] ?]]; tauto.
Qed.

(** The passages of one text. *)
Lemma store_passages (passages : list string) d :
  good d →
  good (fold_left (λ sentences passage,
          fold_left (λ sentences sentence,
              let tokens := tok sentence in
              match tokens with
              | [] => sentences
              | _ :: _ => Dict.set sentence tokens sentences
              end) (sent_tokenize passage) sentences) passages d)
  ∧ ∀ s, s ∈ Dict.keys (fold_left (λ sentences passage,
            fold_left (λ sentences sentence,
                let tokens := tok sentence in
                match tokens with
                | [] => sentences
                | _ :: _ => Dict.set sentence tokens sentences
                end) (sent_tokenize passage) sentences) passages d)
         ↔ s ∈ Dict.keys d
           ∨ (tok s ≠ []
              ∧ ∃ passage, passage ∈ passages ∧ s ∈ sent_tokenize passage).
Proof.
  revert d. induction passages as [|p passages IH]; intros d Hd; simpl.
  - split; [done|]. intros s. split; [by left|].
    intros [?|[_ (p & ?%elem_of_nil & _)]]; done.
  - destruct (store_sentences (sent_tokenize p) d Hd) as [Hd' Hk'].
    destruct (IH _ Hd') as [Hgood Hkeys]. split; [done|].
    intros s. rewrite Hkeys, Hk'. split.
    + intros [[?|[? ?]]|[? (p' & ? & ?)]]; [by left | |].
      * right. split; [done|]. exists p. split; [left | done].
      * right. split; [done|]. exists p'. split; [by right | done].
    + intros [?|[? (p' & [->|?]%elem_of_cons & ?)]]; [tauto | tauto |].
      right. split; [done|]. by exists p'.
Qed.

(** The loop over the selected files. *)
Lemma store_files files (filenames : list string) d :
  (∀ filename, filename ∈ filenames → filename ∈ Dict.keys files) →
  good d →
  ∃ d',
    foldM (λ sentences filename,
        text ← files_get files filename;
        Ok (fold_left (λ sentences passage,
               fold_left (λ sentences sentence,
                   let tokens := tok sentence in
                   match tokens with
                   | [] => sentences
                   | _ :: _ => Dict.set sentence tokens sentences
                   end) (sent_tokenize passage) sentences)
             (split_newline text) sentences)) filenames d = Ok d'
    ∧ good d'
    ∧ ∀ s, s ∈ Dict.keys d'
           ↔ s ∈ Dict.keys d
             ∨ (tok s ≠ []
                ∧ ∃ filename text passage,
                    filename ∈ filenames
                    ∧ Dict.get filename files = Some text
                    ∧ passage ∈ split_newline text
                    ∧ s ∈ sent_tokenize passage).
Proof.
  revert d. induction filenames as [|f filenames IH]; intros d Hkeys Hd.
  - exists d. split_and!; [done | done |]. intros s. split; [by left|].
    intros [?|[_ (f & text & p & ?%elem_of_nil & _)]]; done.
  - destruct (files_get_key files f) as (text & Hget & Hfg);
      [apply Hkeys; left|].
    rewrite foldM_cons, Hfg, bind_Ok.
    destruct (store_passages (split_newline text) d Hd) as [Hd1 Hk1].
    assert (∀ f', f' ∈ filenames → f' ∈ Dict.keys files) as Hkeys'
      by (intros f' Hf'; apply Hkeys; by right).
    destruct (IH _ Hkeys' Hd1) as (d' & Hrun & Hgood & Hk').
    exists d'. split_and!; [done | done |].
    intros s. rewrite Hk', Hk1. split.
    + intros [[?|[? (p & ? & ?)]]|[? (f' & text' & p & ? & ? & ? & ?)]].
      * by left.
      * right. split; [done|]. exists f, text, p. split_and!; [left|done..].
      * right. split; [done|].
        exists f', text', p. split_and!; [by right|done..].
    + intros [?|[? (f' & text' & p & [->|?]%elem_of_cons & Hg & ? & ?)]].
      * tauto.
      * rewrite Hget in Hg. injection Hg as <-. left. right.
        split; [done|]. by exists p.
      * right. split; [done|]. by exists f', text', p.
Qed.

Lemma extract_sentences_run files (filenames : list string) :
  (∀ filename, filename ∈ filenames → filename ∈ Dict.keys files) →
  ∃ sentences,
    extract_sentences lower isalpha word_tokenize stopwords sent_tokenize
      files filenames = Ok sentences
    ∧ good sentences
    ∧ ∀ s, s ∈ Dict.keys sentences
           ↔ tok s ≠ []
             ∧ ∃ filename text passage,
                 filename ∈ filenames
                 ∧ Dict.get filename files = Some text
                 ∧ passage ∈ split_newline text
                 ∧ s ∈ sent_tokenize passage.
Proof.
  intros Hkeys.
  destruct (store_files files filenames [] Hkeys)
    as (sentences & Hrun & Hgood & Hk).
  { split; [apply NoDup_nil_2|].
    intros s toks Hin. by apply elem_of_nil in Hin. }
  exists sentences. split_and!; [exact Hrun | done |].
  intros s. rewrite Hk. split; [|by right].
  intros [Hs|?]; [by apply elem_of_nil in Hs | done].
Qed.
End query_cycle_facts.

Section main_facts.
Variables (lower : string → string) (isalpha : string → bool).
Variables (word_tokenize : string → list string) (stopwords : list string).
Variable sent_tokenize : string → list string.

Local Notation "'tok'" := (tokenize lower isalpha word_tokenize stopwords).
Local Notation "'words_of'" :=
  (λ files : list (string * string),
     (λ '(filename, text), (filename, tok text)) <$> files).

Lemma file_words_table files :
  Dict.wf files →
  file_words lower isalpha word_tokenize stopwords files
  = Ok (words_of files).
Proof.
  intros Hwf. unfold file_words.
  rewrite (foldM_set _
    (λ filename, (filename, tok (default ""%string (Dict.get filename files))))).
  - simpl. f_equal. unfold Dict.keys. rewrite <- list_fmap_compose.
    apply list_fmap_ext. intros i [filename text] Hi. simpl.
    by rewrite (get_elem filename text files Hwf)
      by (by eapply list_elem_of_lookup_2).
  - intros d filename Hin.
    destruct (files_get_key files filename Hin) as (text & Hget & ->).
    by rewrite bind_Ok, Hget.
  - simpl. rewrite list_fmap_id. exact Hwf.
Qed.

Lemma keys_words_of files : Dict.keys (words_of files) = Dict.keys files.
Proof.
  unfold Dict.keys. rewrite <- list_fmap_compose.
  apply list_fmap_ext. by intros i [??].
Qed.

Lemma occurs_words_of t files :
  occurs t (words_of files)
  ↔ ∃ filename text, (filename, text) ∈ files ∧ t ∈ tok text.
Proof.
  unfold occurs. split.
  - intros (name & ws & Hin & Ht).
    apply list_elem_of_fmap in Hin as ([filename text] & [= -> ->] & Hin).
    by exists filename, text.
  - intros (filename & text & Hin & Ht). exists filename, (tok text).
    split; [|done].
    by apply (list_elem_of_fmap_2 (λ '(filename, text), (filename, tok text)))
      in Hin.
Qed.

(** The document stage: a ranking of names of the corpus. *)
Lemma top_files_names (query : gset string) fw idfs n :
  Dict.wf fw →
  fw = [] ∨ (∀ t, t ∈ query → is_Some (idfs !! t)) →
  ∃ filenames,
    top_files query fw idfs n = Ok filenames
    ∧ ∀ filename, filename ∈ filenames → filename ∈ Dict.keys fw.
Proof.
  intros Hwf [->|Hcov].
  - exists []. split; [by destruct n|]. intros f Hf. by apply elem_of_nil in Hf.
  - eexists. split; [by apply top_files_table|].
    intros f Hf. apply subseteq_take in Hf.
    by rewrite sorted_reverse_perm, keys_tfidf_table in Hf.
Qed.

(** A query cycle in which the document stage finds all its keys runs to
    the end. *)
Lemma main_run files input :
  Dict.wf files →
  files = [] ∨ (∀ t, t ∈ tok input → occurs t (words_of files)) →
  ∃ sentences idfs,
    sentence_table lower isalpha word_tokenize stopwords sentences
    ∧ (∀ s, s ∈ Dict.keys sentences →
         ∃ filename text passage,
           (filename, text) ∈ files
           ∧ passage ∈ split_newline text
           ∧ s ∈ sent_tokenize passage)
    ∧ main lower isalpha word_tokenize stopwords sent_tokenize files input
      = Ok (take SENTENCE_MATCHES
              (sorted_reverse snd tuple_lt
                 (scored (list_to_set (tok input)) idfs sentences)).*1).
Proof.
  intros Hwf Hcase. unfold main.
  rewrite file_words_table, bind_Ok by done.
  destruct (compute_idfs_table (words_of files))
    as (file_idfs & -> & Hocc & _).
  rewrite bind_Ok.
  destruct (top_files_names (list_to_set (tok input)) (words_of files)
              file_idfs FILE_MATCHES) as (filenames & -> & Hnames).
  { unfold Dict.wf. by rewrite keys_words_of. }
  { destruct Hcase as [->|Hcov]; [by left|]. right.
    intros t Ht%elem_of_list_to_set. rewrite Hocc; [done | by apply Hcov]. }
  rewrite bind_Ok.
  destruct (extract_sentences_run lower isalpha word_tokenize stopwords
              sent_tokenize files filenames)
    as (sentences & Hrun & Hgood & Hkeys).
  { intros f Hf. rewrite <- keys_words_of. by apply Hnames. }
  rewrite Hrun, bind_Ok.
  destruct (compute_idfs_table sentences) as (idfs & Hidfs & _).
  rewrite Hidfs, bind_Ok.
  rewrite top_sentences_scored;
    [|apply Hgood | by apply compute_idfs_covers].
  exists sentences, idfs. split_and!; [done | | done].
  intros s Hs. apply Hkeys in Hs as [_ (f & text & p & _ & Hg & Hp & Hin)].
  exists f, text, p. split_and!; [|done..].
  clear -Hg. induction files as [|[f' text'] files IH]; [done|].
  simpl in Hg. destruct (decide (f = f')) as [->|Hne].
  - injection Hg as ->. left.
  - right. by apply IH.
Qed.

(** A query token that occurs in no document stops the cycle at the
    document stage. *)
Lemma main_unknown_token files input t :
  Dict.wf files → files ≠ [] →
  t ∈ tok input → ¬ occurs t (words_of files) →
  main lower isalpha word_tokenize stopwords sent_tokenize files input
  = Raise KeyError.
Proof.
  intros Hwf Hne Ht Hno. unfold main.
  rewrite file_words_table, bind_Ok by done.
  destruct (compute_idfs_table (words_of files))
    as (file_idfs & -> & _ & Hdom).
  rewrite bind_Ok.
  rewrite (top_files_missing_entry _ _ _ _ t); [done | | | |].
  - unfold Dict.wf. by rewrite keys_words_of.
  - by destruct files.
  - by apply elem_of_list_to_set.
  - apply eq_None_not_Some. intros Hsome. by apply Hno, Hdom.
Qed.
End main_facts.

Section main_properties.
Variables (lower : string → string) (isalpha : string → bool).
Variables (word_tokenize : string → list string) (stopwords : list string).
Variable sent_tokenize : string → list string.

Local Notation "'tok'" := (tokenize lower isalpha word_tokenize stopwords).
Local Notation "'run'" :=
  (main lower isalpha word_tokenize stopwords sent_tokenize).
Local Notation "'words_of'" :=
  (λ files : list (string * string),
     (λ '(filename, text), (filename, tok text)) <$> files).

Lemma main_Ok_inv files input out :
  Dict.wf files → run files input = Ok out →
  files = [] ∨ (∀ t, t ∈ tok input → occurs t (words_of files)).
Proof.
  intros Hwf Hrun. destruct files as [|file files]; [by left|]. right.
  intros t Ht.
  destruct (decide (0 < units_containing t (words_of (file :: files))))
    as [Hpos|Hz]; [by apply occurs_units_containing|].
  rewrite (main_unknown_token _ _ _ _ _ _ _ t) in Hrun; try done.
  by rewrite occurs_units_containing.
Qed.

(** X13. The loop of [main] that collects the sentences of the selected
    files, each of which is a key of [files], does not fail, and the table
    it builds is one the sentence ranker accepts: its sentences are
    unique, each is stored with its own tokens, and it holds exactly the
    sentences of the selected files that have at least one token. *)
Theorem extract_sentences_table files (filenames : list string) :
  (∀ filename, filename ∈ filenames → filename ∈ Dict.keys files) →
  ∃ sentences,
    extract_sentences lower isalpha word_tokenize stopwords sent_tokenize
      files filenames = Ok sentences
    ∧ Dict.wf sentences
    ∧ (∀ sentence tokens,
         (sentence, tokens) ∈ sentences →
         tokens = tok sentence ∧ tokens ≠ [])
    ∧ ∀ sentence,
        sentence ∈ Dict.keys sentences
        ↔ tok sentence ≠ []
          ∧ ∃ filename text passage,
              filename ∈ filenames
              ∧ Dict.get filename files = Some text
              ∧ passage ∈ split_newline text
              ∧ sentence ∈ sent_tokenize passage.
Proof.
  intros Hkeys.
  destruct (extract_sentences_run lower isalpha word_tokenize stopwords
              sent_tokenize files filenames Hkeys)
    as (sentences & Hrun & [Hwf Htok] & Hk).
  by exists sentences.
Qed.

(** X14. For a corpus of uniquely named files the query cycle of [main]
    runs to the end exactly when the corpus is empty or every token of the
    query occurs in some document; in every other case it stops with
    [KeyError], and it raises nothing else (no division by zero, no
    logarithm error). *)
Theorem main_outcome files input :
  Dict.wf files →
  ((∃ out, run files input = Ok out)
   ↔ files = []
     ∨ ∀ t, t ∈ tok input →
         ∃ filename text, (filename, text) ∈ files ∧ t ∈ tok text)
  ∧ (∀ e, run files input = Raise e → e = KeyError).
Proof.
  intros Hwf.
  assert (Hok : files = [] ∨ (∀ t, t ∈ tok input → occurs t (words_of files)) →
                ∃ out, run files input = Ok out).
  { intros Hcase.
    destruct (main_run lower isalpha word_tokenize stopwords sent_tokenize
                files input Hwf Hcase) as (sentences & idfs & _ & _ & Hrun).
    eauto. }
  split; [split|].
  - intros [out Hrun].
    destruct (main_Ok_inv _ _ _ Hwf Hrun) as [?|Hocc]; [by left|]. right.
    intros t Ht. by apply occurs_words_of, Hocc.
  - intros [->|Hocc]; apply Hok; [by left|]. right.
    intros t Ht. by apply occurs_words_of, Hocc.
  - intros e Hrun.
    destruct (decide (Forall (λ t, 0 < units_containing t (words_of files))
                        (tok input))) as [Hall|Hex].
    + destruct Hok as [out Hout]; [|congruence]. right.
      intros t Ht. rewrite Forall_forall in Hall.
      by apply occurs_units_containing, Hall.
    + apply not_Forall_Exists in Hex; [|apply _].
      apply Exists_exists in Hex as (t & Ht & Hz). simpl in Hz.
      destruct files as [|file files].
      { destruct Hok as [out Hout]; [by left | congruence]. }
      rewrite (main_unknown_token _ _ _ _ _ _ _ t) in Hrun; try done.
      * by injection Hrun as <-.
      * by rewrite occurs_units_containing.
Qed.

(** X15. Whenever the query cycle of [main] runs to the end it prints at
    most one sentence, and a printed sentence is a sentence of some
    passage of a file of the corpus whose tokens include a token of the
    query. *)
Theorem main_output files input :
  Dict.wf files →
  match run files input with
  | Ok out =>
      length out ≤ 1
      ∧ ∀ sentence, sentence ∈ out →
          (∃ t, t ∈ tok input ∧ t ∈ tok sentence)
          ∧ ∃ filename text passage,
              (filename, text) ∈ files
              ∧ passage ∈ split_newline text
              ∧ sentence ∈ sent_tokenize passage
  | Raise _ => True
  end.
Proof.
  intros Hwf. destruct (run files input) as [out|e] eqn:Hrun; [|done].
  destruct (main_run lower isalpha word_tokenize stopwords sent_tokenize
              files input Hwf (main_Ok_inv _ _ _ Hwf Hrun))
    as (sentences & idfs & [Hswf Htok] & Horigin & Hout).
  rewrite Hrun in Hout. injection Hout as ->.
  split; [rewrite length_take; unfold SENTENCE_MATCHES; lia|].
  intros s Hs. apply ranking_scored in Hs as Hkey.
  apply keys_scored in Hkey as Hkey'. split; [|by apply Horigin].
  unfold Dict.keys in Hkey.
  apply list_elem_of_fmap in Hkey as ([s' v] & -> & Hin). unfold scored in Hin.
  apply list_elem_of_omap in Hin as ([s0 ws] & Hin & Hsome).
  destruct (contained (list_to_set (tok input)) ws) as [|t ts] eqn:Hc; [done|].
  injection Hsome as -> _. simpl.
  assert (t ∈ contained (list_to_set (tok input)) ws) as Ht
    by (rewrite Hc; left).
  apply contained_spec in Ht as [Hq%elem_of_list_to_set Hw].
  destruct (Htok _ _ Hin) as [-> _]. by exists t.
Qed.

(** X16. With an empty corpus, or with a query that has no token left
    after tokenisation, the query cycle of [main] prints nothing and does
    not fail. *)
Theorem main_prints_nothing files input :
  Dict.wf files →
  files = [] ∨ tok input = [] →
  run files input = Ok [].
Proof.
  intros Hwf Hcase.
  destruct (main_run lower isalpha word_tokenize stopwords sent_tokenize
              files input Hwf) as (sentences & idfs & _ & Horigin & ->).
  { destruct Hcase as [->|Hq]; [by left|]. right.
    intros t Ht. rewrite Hq in Ht. by apply elem_of_nil in Ht. }
  rewrite scored_no_match; [done|].
  intros s ws t Hin Ht%elem_of_list_to_set.
  destruct Hcase as [->|Hq].
  - apply (list_elem_of_fmap_2 fst) in Hin.
    destruct (Horigin _ Hin) as (f & text & p & Hf%elem_of_nil & _). done.
  - rewrite Hq in Ht. by apply elem_of_nil in Ht.
Qed.
End main_properties.

Lemma toy_files_wf : Dict.wf toy_files.
Proof. unfold Dict.wf. apply (bool_decide_unpack _). by vm_compute. Qed.

Example toy_extract_sentences_run :
  toy_extract_sentences toy_files ["a.txt"%string]
  = Ok [("the cat", ["cat"]); ("the dog", ["dog"])]%string.
Proof. by vm_compute. Qed.

Example toy_extract_sentences_missing :
  toy_extract_sentences toy_files ["c.txt"%string] = Raise KeyError.
Proof. by vm_compute. Qed.

Lemma extract_sentences_table_witness :
  (∀ filename, filename ∈ ["a.txt"%string] → filename ∈ Dict.keys toy_files)
  ∧ ∃ sentences,
      toy_extract_sentences toy_files ["a.txt"%string] = Ok sentences
      ∧ Dict.wf sentences
      ∧ (∀ sentence tokens,
           (sentence, tokens) ∈ sentences →
           tokens = toy_tokenize sentence ∧ tokens ≠ [])
      ∧ ∀ sentence,
          sentence ∈ Dict.keys sentences
          ↔ toy_tokenize sentence ≠ []
            ∧ ∃ filename text passage,
                filename ∈ ["a.txt"%string]
                ∧ Dict.get filename toy_files = Some text
                ∧ passage ∈ split_newline text
                ∧ sentence ∈ toy_sent_tokenize passage.
Proof.
  assert (∀ filename, filename ∈ ["a.txt"%string] →
                      filename ∈ Dict.keys toy_files) as Hkeys.
  { intros f Hf%list_elem_of_singleton. subst f.
    apply (bool_decide_unpack _). by vm_compute. }
  split; [exact Hkeys|].
  exact (extract_sentences_table toy_lower toy_isalpha split_space
           toy_stopwords toy_sent_tokenize toy_files ["a.txt"%string] Hkeys).
Defined.

Lemma main_outcome_witness :
  Dict.wf toy_files
  ∧ ((∃ out, toy_main toy_files "the cat" = Ok out)
     ↔ toy_files = []
       ∨ ∀ t, t ∈ toy_tokenize "the cat" →
           ∃ filename text, (filename, text) ∈ toy_files ∧ t ∈ toy_tokenize text)
  ∧ (∀ e, toy_main toy_files "the cat" = Raise e → e = KeyError).
Proof.
  split; [exact toy_files_wf|].
  exact (main_outcome toy_lower toy_isalpha split_space toy_stopwords
           toy_sent_tokenize toy_files "the cat" toy_files_wf).
Defined.

(** A run of the toy query cycle that prints a sentence: "dog" occurs in
    a.txt only, whose second passage is the only sentence containing it. *)
Example toy_main_the_dog : toy_main toy_files "the dog" = Ok ["the dog"%string].
Proof.
  unfold toy_main, main.
  rewrite file_words_table, bind_Ok by apply toy_files_wf.
  assert ((λ '(filename, text),
             (filename,
              tokenize toy_lower toy_isalpha split_space toy_stopwords text))
          <$> toy_files
          = [("a.txt", ["cat" +:+ String "010" "the"; "dog"]);
             ("b.txt", ["bird"])]%string) as -> by (by vm_compute).
  assert (tokenize toy_lower toy_isalpha split_space toy_stopwords "the dog"
          = ["dog"%string]) as -> by (by vm_compute).
  assert (list_to_set ["dog"%string] = ({["dog"%string]} : gset string)) as ->
    by (simpl; apply (right_id_L ∅ (∪))).
  set (fw := [("a.txt", ["cat" +:+ String "010" "the"; "dog"]);
             ("b.txt", ["bird"])]%string).
  assert (Dict.wf fw) as Hwf
    by (unfold Dict.wf; apply (bool_decide_unpack _); by vm_compute).
  destruct (compute_idfs_table fw) as (file_idfs & -> & Hocc & _).
  rewrite bind_Ok.
  assert (file_idfs !! "dog"%string = Some (ln 2)) as Hdog.
  { rewrite Hocc.
    - unfold spec_idf. do 2 f_equal.
      assert (units_containing "dog"%string fw = 1) as -> by (by vm_compute).
      simpl. lra.
    - exists "a.txt"%string, ["cat" +:+ String "010" "the"; "dog"]%string.
      split; apply (bool_decide_unpack _); by vm_compute. }
  rewrite top_files_table;
    [|done|intros t Ht%elem_of_singleton; subst t; by rewrite Hdog].
  rewrite bind_Ok.
  assert (take FILE_MATCHES
            (sorted_reverse snd Rlt (tfidf_table {["dog"%string]} file_idfs fw)).*1
          = ["a.txt"%string]) as ->.
  { unfold tfidf_table, spec_tfidf, fw.
    rewrite elements_singleton. simpl. unfold idf_of. rewrite Hdog. simpl.
    rewrite decide_False by (pose proof ln_2_pos; lra). done. }
  change (extract_sentences toy_lower toy_isalpha split_space toy_stopwords
            toy_sent_tokenize toy_files ["a.txt"%string])
    with (toy_extract_sentences toy_files ["a.txt"%string]).
  rewrite toy_extract_sentences_run, bind_Ok.
  set (sentences := [("the cat", ["cat"]); ("the dog", ["dog"])]%string).
  destruct (compute_idfs_table sentences) as (idfs & Hidfs & _).
  rewrite Hidfs, bind_Ok.
  rewrite top_sentences_scored;
    [| unfold Dict.wf; apply (bool_decide_unpack _); by vm_compute
     | by apply compute_idfs_covers].
  unfold scored, contained, sentences. rewrite elements_singleton. done.
Qed.

Lemma main_output_witness :
  Dict.wf toy_files
  ∧ toy_main toy_files "the dog" = Ok ["the dog"%string]
  ∧ match toy_main toy_files "the dog" with
    | Ok out =>
        length out ≤ 1
        ∧ ∀ sentence, sentence ∈ out →
            (∃ t, t ∈ toy_tokenize "the dog" ∧ t ∈ toy_tokenize sentence)
            ∧ ∃ filename text passage,
                (filename, text) ∈ toy_files
                ∧ passage ∈ split_newline text
                ∧ sentence ∈ toy_sent_tokenize passage
    | Raise _ => True
    end.
Proof.
  split; [exact toy_files_wf|]. split; [exact toy_main_the_dog|].
  exact (main_output toy_lower toy_isalpha split_space toy_stopwords
           toy_sent_tokenize toy_files "the dog" toy_files_wf).
Defined.

Lemma main_prints_nothing_witness :
  Dict.wf toy_files
  ∧ (toy_files = [] ∨ toy_tokenize "the" = [])
  ∧ toy_main toy_files "the" = Ok [].
Proof.
  assert (toy_files = [] ∨ toy_tokenize "the" = []) as Hcase
    by (right; by vm_compute).
  split; [exact toy_files_wf|]. split; [exact Hcase|].
  exact (main_prints_nothing toy_lower toy_isalpha split_space toy_stopwords
           toy_sent_tokenize toy_files "the" toy_files_wf Hcase).
Defined.

(** ** The rankers read the IDF table only at query tokens *)

Lemma foldM_ext {A S} (body body' : S → A → result S) (l : list A) (s : S) :
  (∀ s x, x ∈ l → body s x = body' s x) → foldM body l s = foldM body' l s.
Proof.
  revert s. induction l as [|x l IH]; intros s Hext; [done|].
  rewrite !foldM_cons, Hext by left. destruct (body' s x) as [s'|e]; [|done].
  rewrite !bind_Ok. apply IH. intros s0 y Hy. apply Hext. by right.
Qed.

Lemma mapM_ext {A B} (f g : A → result B) (l : list A) :
  (∀ x, x ∈ l → f x = g x) → mapM f l = mapM g l.
Proof.
  induction l as [|x l IH]; intros Hext; [done|].
  rewrite !mapM_cons, Hext by left.
  rewrite IH; [done|]. intros y Hy. apply Hext. by right.
Qed.

(** X17. [top_files] reads the IDF table only at the tokens of the query:
    two tables that agree on them give the same result, the same ranking
    or the same exception. *)
Theorem top_files_idfs_frame query files idfs idfs' n :
  Dict.wf files →
  (∀ t, t ∈ query → idfs !! t = idfs' !! t) →
  top_files query files idfs n = top_files query files idfs' n.
Proof.
  intros Hwf Hagree. unfold top_files. rewrite query_tf_table by done.
  assert (file_tfidf idfs
            ((λ '(filename, document), (filename, tf_table query document))
             <$> files)
          = file_tfidf idfs'
              ((λ '(filename, document), (filename, tf_table query document))
               <$> files)) as ->; [|done].
  unfold file_tfidf. apply foldM_ext. intros d [filename word_tf] Hin.
  apply list_elem_of_fmap in Hin as ([fn document] & [= -> ->] & _).
  rewrite (mapM_ext _ (λ '(word, tf),
             v ← idfs_get idfs' word; Ok (INR tf * v)%R)); [done|].
  intros [word tf] Hw. unfold tf_table in Hw.
  apply list_elem_of_fmap in Hw as (q & [= -> ->] & Hq%elem_of_elements).
  unfold idfs_get. by rewrite Hagree.
Qed.

Lemma top_files_idfs_frame_witness :
  Dict.wf dogs_cats
  ∧ (∀ t, t ∈ cats_query → partial_idfs !! t = cats_idfs !! t)
  ∧ top_files cats_query dogs_cats partial_idfs 1
    = top_files cats_query dogs_cats cats_idfs 1.
Proof.
  assert (Dict.wf dogs_cats) as Hwf
    by (unfold Dict.wf; apply (bool_decide_unpack _); by vm_compute).
  assert (∀ t, t ∈ cats_query → partial_idfs !! t = cats_idfs !! t)
    as Hagree.
  { intros t Ht%elem_of_singleton. subst t. unfold partial_idfs, cats_idfs.
    rewrite lookup_insert_eq. by rewrite lookup_singleton_eq. }
  split; [exact Hwf|]. split; [exact Hagree|].
  exact (top_files_idfs_frame cats_query dogs_cats partial_idfs
           cats_idfs 1 Hwf Hagree).
Defined.

(** X18. [top_sentences] reads the IDF table only at the query tokens
    that some sentence contains: two tables that agree on them give the
    same result. *)
Theorem top_sentences_idfs_frame query sentences idfs idfs' n :
  (∀ sentence sentence_words t,
     (sentence, sentence_words) ∈ sentences → t ∈ query →
     t ∈ sentence_words → idfs !! t = idfs' !! t) →
  top_sentences query sentences idfs n = top_sentences query sentences idfs' n.
Proof.
  intros Hagree. unfold top_sentences.
  assert (sentences_mwm query sentences idfs
          = sentences_mwm query sentences idfs') as ->; [|done].
  unfold sentences_mwm. apply foldM_ext. intros mwm [s ws] Hin.
  apply foldM_ext. intros mwm' word Hq%elem_of_elements.
  unfold score_word. destruct (decide (word ∈ ws)) as [Hw|Hw].
  - rewrite !bool_decide_eq_true_2 by done. unfold idfs_get.
    by rewrite (Hagree s ws word).
  - by rewrite !bool_decide_eq_false_2.
Qed.

Lemma top_sentences_idfs_frame_witness :
  (∀ sentence sentence_words t,
     (sentence, sentence_words) ∈ cat_sentences → t ∈ cat_query →
     t ∈ sentence_words →
     cat_idfs !! t = (<["sat"%string := 1%R]> cat_idfs) !! t)
  ∧ top_sentences cat_query cat_sentences cat_idfs 1
    = top_sentences cat_query cat_sentences (<["sat"%string := 1%R]> cat_idfs) 1.
Proof.
  assert (∀ sentence sentence_words t,
            (sentence, sentence_words) ∈ cat_sentences → t ∈ cat_query →
            t ∈ sentence_words →
            cat_idfs !! t = (<["sat"%string := 1%R]> cat_idfs) !! t) as Hagree.
  { intros s ws t _ Ht%elem_of_singleton _. subst t.
    by rewrite lookup_insert_ne. }
  split; [exact Hagree|].
  exact (top_sentences_idfs_frame cat_query cat_sentences cat_idfs
           (<["sat"%string := 1%R]> cat_idfs) 1 Hagree).
Defined.

(** ** The text helpers, run on the model *)

Lemma split_newline_nonempty text : split_newline text ≠ [].
Proof.
  destruct text as [|c text]; simpl; [done|].
  destruct (Ascii.eqb c "010"); [done|]. by destruct (split_newline text).
Qed.

(** Joining the pieces with line feeds gives the text back. *)
Lemma split_newline_join text :
  String.concat (String "010" "") (split_newline text) = text.
Proof.
  induction text as [|c text IH]; [done|]. simpl.
  pose proof (split_newline_nonempty text) as Hne.
  destruct (Ascii.eqb c "010") eqn:Hc.
  - apply Ascii.eqb_eq in Hc as ->.
    destruct (split_newline text) as [|p ps]; [done|].
    simpl in *. by rewrite IH.
  - destruct (split_newline text) as [|p ps]; [done|].
    destruct ps as [|p' ps]; simpl in *; by rewrite <- IH.
Qed.

(** * The order of the rankings, over machine numbers *)

(** ** The comparisons *)

Lemma R_num_order : Float.NumOrder R_num.
Proof.
  split; simpl.
  - intros a b. lra.
  - intros a b c. lra.
  - intros a b. lra.
Qed.

Section float_order_facts.
Context {N : Float.Num} {HN : Float.NumOrder N}.
Implicit Types (a b c : Float.num).

Lemma flt_cotrans a b c :
  Float.flt a c → Float.flt a b ∨ Float.flt b c.
Proof.
  intros Hac. destruct (decide (Float.flt a b)) as [|Hab]; [by left|].
  destruct (decide (Float.flt b c)) as [|Hbc]; [by right|].
  by destruct (Float.flt_negtrans a b c).
Qed.

(** The tuple order is the lexicographic one. *)
Lemma float_tuple_lt_lex (x y : Float.num * Float.num) :
  Float.tuple_lt x y
  ↔ Float.flt x.1 y.1
    ∨ (¬ Float.flt x.1 y.1 ∧ ¬ Float.flt y.1 x.1 ∧ Float.flt x.2 y.2).
Proof.
  unfold Float.tuple_lt. rewrite !Float.feq_incomparable. split.
  - intros [[_ Hlt]|[[H1 H2] [_ Hlt]]]; [by left | by right].
  - intros [Hlt|(H1 & H2 & Hlt)].
    + left. split; [by intros [? _] | done].
    + right. split_and!; [done | done | by intros [? _] | done].
Qed.

Lemma float_tuple_lt_asym (x y : Float.num * Float.num) :
  Float.tuple_lt x y → ¬ Float.tuple_lt y x.
Proof.
  rewrite !float_tuple_lt_lex.
  intros [Hlt|(H1 & H2 & Hlt)] [Hlt'|(H1' & H2' & Hlt')]; try done.
  - by apply (Float.flt_asym _ _ Hlt).
  - by apply (Float.flt_asym _ _ Hlt).
Qed.

Lemma float_tuple_lt_negtrans (x y z : Float.num * Float.num) :
  ¬ Float.tuple_lt x y → ¬ Float.tuple_lt y z → ¬ Float.tuple_lt x z.
Proof.
  rewrite !float_tuple_lt_lex. intros Hxy Hyz [Hlt|(H1 & H2 & Hlt)].
  - destruct (flt_cotrans _ y.1 _ Hlt); [apply Hxy | apply Hyz]; by left.
  - destruct (decide (Float.flt y.1 x.1)) as [Hyx|Hyx].
    { destruct (flt_cotrans _ z.1 _ Hyx); [|done]. apply Hyz. by left. }
    destruct (decide (Float.flt z.1 y.1)) as [Hzy|Hzy].
    { destruct (flt_cotrans _ x.1 _ Hzy); [done|]. apply Hxy. by left. }
    destruct (decide (Float.flt x.1 y.1)) as [?|Hxy1]; [apply Hxy; by left|].
    destruct (decide (Float.flt y.1 z.1)) as [?|Hyz1]; [apply Hyz; by left|].
    apply (Float.flt_negtrans x.2 y.2 z.2); [| |done].
    + intros ?. apply Hxy. by right.
    + intros ?. apply Hyz. by right.
Qed.
End float_order_facts.

(** ** The scoring loops *)

Section float_loop_facts.
Context {N : Float.Num}.
Variables (query : gset string) (sentences : list (string * list string)).
Variable idfs : gmap string Float.num.
Implicit Types (mwm : list (string * (Float.num * Float.num))).
Implicit Types (q ws : list string).

Lemma float_idfs_get_Some word :
  is_Some (idfs !! word) →
  Float.idfs_get idfs word = Ok (Float.idf_of idfs word).
Proof. intros [v Hv]. unfold Float.idfs_get, Float.idf_of. by rewrite Hv. Qed.

Lemma float_density_get sentence ws :
  Dict.get sentence sentences = Some ws → ws ≠ [] →
  Float.query_term_density query sentences sentence
  = Ok (Float.density query ws).
Proof.
  intros Hget Hne.
  unfold Float.query_term_density, Float.py_truediv, Float.density.
  rewrite Hget, sum_list_ones.
  rewrite decide_False; [done|]. by destruct ws.
Qed.

Lemma float_score_word_skip sentence ws mwm word :
  word ∉ ws →
  Float.score_word query sentences idfs sentence ws mwm word = Ok mwm.
Proof.
  intros Hout. unfold Float.score_word. by rewrite bool_decide_eq_false_2.
Qed.

Lemma float_score_word_add sentence ws mwm word idf qtd :
  word ∈ ws → is_Some (idfs !! word) →
  Dict.get sentence mwm = Some (idf, qtd) →
  Float.score_word query sentences idfs sentence ws mwm word
  = Ok (Dict.set sentence (Float.fadd idf (Float.idf_of idfs word), qtd) mwm).
Proof.
  intros Hin Hsome Hget. unfold Float.score_word.
  by rewrite bool_decide_eq_true_2, Hget, float_idfs_get_Some.
Qed.

Lemma float_score_word_new sentence ws mwm word :
  word ∈ ws → is_Some (idfs !! word) →
  Dict.get sentence sentences = Some ws →
  Dict.get sentence mwm = None →
  Float.score_word query sentences idfs sentence ws mwm word
  = Ok (Dict.set sentence
          (Float.idf_of idfs word, Float.density query ws) mwm).
Proof.
  intros Hin Hsome Hws Hget. unfold Float.score_word.
  rewrite bool_decide_eq_true_2, Hget, float_idfs_get_Some by done. simpl.
  rewrite (float_density_get _ ws); [done | done |].
  intros ->. by apply elem_of_nil in Hin.
Qed.

(** The additions are made one by one, in the order of the query. *)
Lemma float_score_word_more sentence ws q mwm acc qtd :
  sentence ∉ Dict.keys mwm →
  (∀ w, w ∈ q → w ∈ ws → is_Some (idfs !! w)) →
  foldM (Float.score_word query sentences idfs sentence ws) q
    (mwm ++ [(sentence, (acc, qtd))])
  = Ok (mwm ++ [(sentence,
                 (fold_left Float.fadd
                    (Float.idf_of idfs <$> filter (λ w, w ∈ ws) q) acc,
                  qtd))]).
Proof.
  intros Hfresh. revert acc.
  induction q as [|word q IH]; intros acc Hcov; [done|].
  assert (Hq : ∀ w, w ∈ q → w ∈ ws → is_Some (idfs !! w))
    by (intros w Hw; apply Hcov; by right).
  rewrite foldM_cons. destruct (decide (word ∈ ws)) as [Hin|Hout].
  - rewrite (float_score_word_add _ _ _ _ acc qtd);
      [| done | apply Hcov; [left | done] | by apply get_last].
    rewrite bind_Ok, set_last, IH by done.
    by rewrite filter_cons_True by done.
  - rewrite float_score_word_skip, bind_Ok by done.
    rewrite filter_cons_False by done. by apply IH.
Qed.

Lemma float_score_word_loop sentence ws q mwm :
  Dict.get sentence sentences = Some ws →
  sentence ∉ Dict.keys mwm →
  (∀ w, w ∈ q → w ∈ ws → is_Some (idfs !! w)) →
  foldM (Float.score_word query sentences idfs sentence ws) q mwm
  = Ok (match filter (λ w, w ∈ ws) q with
        | [] => mwm
        | t :: ts =>
            mwm ++ [(sentence,
                     (Float.primary idfs t ts, Float.density query ws))]
        end).
Proof.
  intros Hget Hfresh.
  induction q as [|word q IH]; intros Hcov; [done|].
  assert (Hq : ∀ w, w ∈ q → w ∈ ws → is_Some (idfs !! w))
    by (intros w Hw; apply Hcov; by right).
  rewrite foldM_cons. destruct (decide (word ∈ ws)) as [Hin|Hout].
  - rewrite float_score_word_new;
      [| done | apply Hcov; [left | done] | done | by apply get_None].
    rewrite bind_Ok, set_fresh, float_score_word_more by done.
    by rewrite filter_cons_True by done.
  - rewrite float_score_word_skip, bind_Ok by done.
    rewrite filter_cons_False by done. by apply IH.
Qed.

Lemma float_scored_cons sentence words units :
  Float.scored query idfs ((sentence, words) :: units)
  = match contained query words with
    | [] => Float.scored query idfs units
    | t :: ts =>
        (sentence, (Float.primary idfs t ts, Float.density query words))
        :: Float.scored query idfs units
    end.
Proof. unfold Float.scored. simpl. by destruct (contained query words). Qed.

Lemma float_keys_scored units :
  Dict.keys (Float.scored query idfs units)
  = Dict.keys (filter (λ unit, contained query unit.2 ≠ []) units).
Proof.
  unfold Dict.keys. induction units as [|[s ws] units IH]; [done|].
  rewrite float_scored_cons, filter_cons. simpl.
  destruct (contained query ws) as [|t ts].
  - by rewrite decide_False by (by intros []).
  - rewrite decide_True by done. rewrite !fmap_cons. simpl. by rewrite IH.
Qed.

Lemma float_scored_sublist units units' :
  units `sublist_of` units' →
  Float.scored query idfs units `sublist_of` Float.scored query idfs units'.
Proof.
  induction 1 as [|[s ws] l1 l2 _ IH|[s ws] l1 l2 _ IH]; [done| |].
  - rewrite !float_scored_cons. destruct (contained query ws); [done|].
    by apply sublist_skip.
  - rewrite float_scored_cons. destruct (contained query ws); [done|].
    by apply sublist_cons.
Qed.

Lemma float_sentences_mwm_loop units mwm :
  (∀ s ws, (s, ws) ∈ units → Dict.get s sentences = Some ws) →
  NoDup (Dict.keys mwm ++ Dict.keys units) →
  Float.covers idfs query units →
  foldM (λ sentences_mwm '(sentence, sentence_words),
      foldM (Float.score_word query sentences idfs sentence sentence_words)
        (elements query) sentences_mwm)
    units mwm
  = Ok (mwm ++ Float.scored query idfs units).
Proof.
  revert mwm. induction units as [|[s ws] units IH]; intros mwm Hget Hnd Hcov.
  - simpl. by rewrite app_nil_r.
  - rewrite foldM_cons, float_scored_cons.
    unfold Dict.keys in Hnd. rewrite fmap_cons in Hnd. simpl in Hnd.
    apply NoDup_app in Hnd as (Hmwm & Hdisj & Hunits).
    apply NoDup_cons in Hunits as [Hs Hunits].
    assert (Hfresh : s ∉ Dict.keys mwm).
    { intros Hin. apply (Hdisj s Hin). left. }
    rewrite (float_score_word_loop s ws) by
      (done || (apply Hget; left)
       || (intros w Hw; apply (Hcov s ws w); [left | by apply elem_of_elements])).
    rewrite bind_Ok. fold (contained query ws).
    assert (Hget' : ∀ s' ws', (s', ws') ∈ units →
                              Dict.get s' sentences = Some ws')
      by (intros s' ws' Hin; apply Hget; by right).
    assert (Hcov' : Float.covers idfs query units)
      by (intros s' ws' w Hin; apply (Hcov s' ws' w); by right).
    destruct (contained query ws) as [|t ts] eqn:Hc.
    + apply IH; [done | | done]. apply NoDup_app. split_and!; [done | | done].
      intros x Hx Hx'. apply (Hdisj x Hx). by right.
    + rewrite IH; [by rewrite <- app_assoc | done | | done].
      unfold Dict.keys. rewrite fmap_app. simpl.
      apply NoDup_app. split_and!; [| | done].
      * apply NoDup_app. split_and!; [done | | apply NoDup_singleton].
        intros x Hx Hx'. apply list_elem_of_singleton in Hx' as ->. done.
      * intros x Hx Hx'. apply elem_of_app in Hx as [Hx|Hx].
        -- apply (Hdisj x Hx). by right.
        -- apply list_elem_of_singleton in Hx as ->. done.
Qed.

(** With unique sentences and a covering table the loop builds the scored
    set, each score computed as [Float.primary] and [Float.density] say. *)
Lemma float_top_sentences_scored n :
  Dict.wf sentences →
  Float.covers idfs query sentences →
  Float.sentences_mwm query sentences idfs
  = Ok (Float.scored query idfs sentences)
  ∧ Float.top_sentences query sentences idfs n
    = Ok (take n (sorted_reverse snd Float.tuple_lt
                    (Float.scored query idfs sentences)).*1).
Proof.
  intros Hwf Hcov.
  assert (Float.sentences_mwm query sentences idfs
          = Ok (Float.scored query idfs sentences)) as Hm.
  { unfold Float.sentences_mwm.
    rewrite float_sentences_mwm_loop; [done | | done | done].
    intros s ws Hin. by apply get_elem. }
  split; [done|]. unfold Float.top_sentences. by rewrite Hm.
Qed.
End float_loop_facts.

Section float_files_facts.
Context {N : Float.Num}.
Variables (query : gset string) (idfs : gmap string Float.num).
Implicit Types (files : list (string * list string)).

Lemma float_terms_covered (q : list string) document :
  (∀ t, t ∈ q → is_Some (idfs !! t)) →
  mapM (λ '(word, tf),
      v ← Float.idfs_get idfs word; Ok (Float.fmul (Float.of_int tf) v))
    ((λ q, (q, length (filter (λ w, w = q) document))) <$> q)
  = Ok ((λ q, Float.fmul
                (Float.of_int (length (filter (λ w, w = q) document)))
                (Float.idf_of idfs q))
        <$> q).
Proof.
  induction q as [|t q IH]; intros Hcov; [done|].
  rewrite !fmap_cons, mapM_cons.
  rewrite float_idfs_get_Some, bind_Ok by (apply Hcov; left).
  rewrite IH; [done|]. intros t' Ht'. apply Hcov. by right.
Qed.

Lemma float_file_tfidf_table files :
  Dict.wf files →
  (∀ t, t ∈ query → is_Some (idfs !! t)) →
  Float.file_tfidf idfs (query_tf query files)
  = Ok (Float.tfidf_table query idfs files).
Proof.
  intros Hwf Hcov. rewrite query_tf_table by done. unfold Float.file_tfidf.
  rewrite (foldM_set _ (λ '(filename, word_tf),
    (filename,
     Float.fsum ((λ '(q, tf), Float.fmul (Float.of_int tf)
                                (Float.idf_of idfs q)) <$> word_tf)))).
  - simpl. unfold Float.tfidf_table. rewrite <- list_fmap_compose. f_equal.
    apply list_fmap_ext. intros i [filename document] _. simpl. f_equal.
    unfold tf_table, Float.tfidf. by rewrite <- list_fmap_compose.
  - intros d [filename word_tf] Hin.
    apply list_elem_of_fmap in Hin as ([fn document] & [= -> ->] & _).
    unfold tf_table. rewrite float_terms_covered
      by (intros t Ht; apply Hcov; by apply elem_of_elements).
    simpl. by rewrite <- list_fmap_compose.
  - simpl. rewrite <- list_fmap_compose. unfold Dict.wf, Dict.keys in Hwf.
    erewrite list_fmap_ext; [exact Hwf|]. by intros i [??].
Qed.

Lemma float_keys_tfidf_table files :
  (Float.tfidf_table query idfs files).*1 = Dict.keys files.
Proof.
  unfold Float.tfidf_table, Dict.keys. rewrite <- list_fmap_compose.
  apply list_fmap_ext. by intros i [??].
Qed.
End float_files_facts.

(** ** The idealised rankers are the instance at the real numbers *)

Lemma sorted_reverse_ext {A B} (key : A → B) (lt1 lt2 : B → B → Prop)
    `{∀ x y, Decision (lt1 x y)} `{∀ x y, Decision (lt2 x y)} (l : list A) :
  (∀ x y, lt1 x y ↔ lt2 x y) →
  sorted_reverse key lt1 l = sorted_reverse key lt2 l.
Proof.
  intros Hiff. induction l as [|x l IH]; [done|]. simpl. rewrite IH.
  generalize (sorted_reverse key lt2 l). intros k.
  induction k as [|y k IHk]; [done|]. simpl.
  destruct (decide (lt1 (key x) (key y))) as [H1|H1].
  - rewrite decide_True by (by apply Hiff). by rewrite IHk.
  - by rewrite decide_False by (by rewrite <- Hiff).
Qed.

Lemma float_top_files_real query files (idfs : gmap string R) n :
  Float.top_files (N := R_num) query files idfs n
  = top_files query files idfs n.
Proof. reflexivity. Qed.

Lemma float_top_sentences_real query sentences (idfs : gmap string R) n :
  Float.top_sentences (N := R_num) query sentences idfs n
  = top_sentences query sentences idfs n.
Proof.
  unfold Float.top_sentences, top_sentences.
  change (Float.sentences_mwm (N := R_num) query sentences idfs)
    with (sentences_mwm query sentences idfs).
  destruct (sentences_mwm query sentences idfs) as [mwm|e]; [|done].
  simpl. do 3 f_equal. apply sorted_reverse_ext.
  intros x y. unfold Float.tuple_lt, tuple_lt. simpl. lra.
Qed.

(** ** The order of the sentence ranking *)

Lemma rounding_num_order : Float.NumOrder rounding_num.
Proof. split; simpl; intros; lia. Qed.

Lemma abc_sentences_wf : Dict.wf abc_sentences.
Proof. unfold Dict.wf. apply (bool_decide_unpack _). by vm_compute. Qed.

Lemma abc_files_wf : Dict.wf abc_files.
Proof. unfold Dict.wf. apply (bool_decide_unpack _). by vm_compute. Qed.

Lemma abc_idfs_covers_query t : t ∈ abc_query → is_Some (abc_idfs !! t).
Proof.
  unfold abc_query. rewrite !elem_of_union, !elem_of_singleton.
  intros [[->| ->]| ->]; vm_compute; by eexists.
Qed.

Lemma abc_idfs_covers :
  Float.covers (N := rounding_num) abc_idfs abc_query abc_sentences.
Proof. intros name words t _ Ht _. by apply abc_idfs_covers_query. Qed.

(** The exact sums tie at 7 and the denser sentence s2 would come first;
    the computed sums are 6 and 7, and the code's order follows them. *)
Example rounding_top_sentences :
  Float.sentences_mwm (N := rounding_num) abc_query abc_sentences abc_idfs
  = Ok [("s2", (6, 1000)); ("s1", (7, 500))]%string
  ∧ Float.top_sentences (N := rounding_num) abc_query abc_sentences abc_idfs 1
    = Ok ["s1"%string].
Proof. split; by vm_compute. Qed.

Example rounding_top_files :
  Float.file_tfidf (N := rounding_num) abc_idfs (query_tf abc_query abc_files)
  = Ok [("A", 6); ("B", 7)]%string
  ∧ Float.top_files (N := rounding_num) abc_query abc_files abc_idfs 1
    = Ok ["B"%string].
Proof. split; by vm_compute. Qed.

(** C4. Over any number type whose comparisons order it, [top_sentences]
    returns the first [n] sentences of the scored set sorted in descending
    lexicographic order of the pair (summed query-term IDF, query term
    density) as the code computes them: an entry never stands before one
    with a greater pair, an entry with a greater summed IDF stands before
    one with a smaller, and among entries whose summed IDFs compare equal
    the one with the greater density stands first. *)
Theorem top_sentences_lexicographic {N : Float.Num} {HN : Float.NumOrder N}
    query sentences (idfs : gmap string Float.num) n :
  Dict.wf sentences →
  Float.covers idfs query sentences →
  ∃ sorted_mwm,
    Float.sentences_mwm query sentences idfs
    = Ok (Float.scored query idfs sentences)
    ∧ sorted_mwm ≡ₚ Float.scored query idfs sentences
    ∧ Float.top_sentences query sentences idfs n = Ok (take n sorted_mwm.*1)
    ∧ length (take n sorted_mwm.*1) ≤ n
    ∧ (∀ i j s1 idf1 qtd1 s2 idf2 qtd2,
         sorted_mwm !! i = Some (s1, (idf1, qtd1)) →
         sorted_mwm !! j = Some (s2, (idf2, qtd2)) →
         (i < j →
          ¬ Float.flt idf1 idf2
          ∧ (Float.feq idf1 idf2 → ¬ Float.flt qtd1 qtd2))
         ∧ (Float.flt idf2 idf1 → i < j)
         ∧ (Float.feq idf1 idf2 → Float.flt qtd2 qtd1 → i < j)).
Proof.
  intros Hwf Hcov.
  destruct (float_top_sentences_scored query sentences idfs n Hwf Hcov)
    as [Hmwm Htop].
  exists (sorted_reverse snd Float.tuple_lt
            (Float.scored query idfs sentences)).
  split; [exact Hmwm|]. split; [apply sorted_reverse_perm|].
  split; [exact Htop|]. split; [rewrite length_take; lia|].
  intros i j s1 idf1 qtd1 s2 idf2 qtd2 Hi Hj. split_and!.
  - intros Hij.
    pose proof (StronglySorted_lookup _ _ i j _ _
      (sorted_reverse_sorted snd Float.tuple_lt float_tuple_lt_asym
         float_tuple_lt_negtrans _) Hij Hi Hj) as Hnb.
    unfold not_below in Hnb. rewrite float_tuple_lt_lex in Hnb. simpl in Hnb.
    split; [intros Hlt; apply Hnb; by left|].
    intros [H1 H2]%Float.feq_incomparable Hlt. apply Hnb. by right.
  - intros Hlt.
    apply (sorted_reverse_greater_first snd Float.tuple_lt float_tuple_lt_asym
             float_tuple_lt_negtrans _ i j _ _ Hi Hj).
    apply float_tuple_lt_lex. by left.
  - intros [H1 H2]%Float.feq_incomparable Hlt.
    apply (sorted_reverse_greater_first snd Float.tuple_lt float_tuple_lt_asym
             float_tuple_lt_negtrans _ i j _ _ Hi Hj).
    apply float_tuple_lt_lex. by right.
Qed.

Lemma top_sentences_lexicographic_witness :
  Float.NumOrder rounding_num
  ∧ Dict.wf abc_sentences
  ∧ Float.covers (N := rounding_num) abc_idfs abc_query abc_sentences
  ∧ ∃ sorted_mwm,
      Float.sentences_mwm (N := rounding_num) abc_query abc_sentences abc_idfs
      = Ok (Float.scored (N := rounding_num) abc_query abc_idfs abc_sentences)
      ∧ sorted_mwm
        ≡ₚ Float.scored (N := rounding_num) abc_query abc_idfs abc_sentences
      ∧ Float.top_sentences (N := rounding_num) abc_query abc_sentences
          abc_idfs 1
        = Ok (take 1 sorted_mwm.*1)
      ∧ length (take 1 sorted_mwm.*1) ≤ 1
      ∧ (∀ i j s1 idf1 qtd1 s2 idf2 qtd2,
           sorted_mwm !! i = Some (s1, (idf1, qtd1)) →
           sorted_mwm !! j = Some (s2, (idf2, qtd2)) →
           (i < j →
            ¬ Float.flt (Num := rounding_num) idf1 idf2
            ∧ (Float.feq (Num := rounding_num) idf1 idf2 →
               ¬ Float.flt (Num := rounding_num) qtd1 qtd2))
           ∧ (Float.flt (Num := rounding_num) idf2 idf1 → i < j)
           ∧ (Float.feq (Num := rounding_num) idf1 idf2 →
              Float.flt (Num := rounding_num) qtd2 qtd1 → i < j)).
Proof.
  split; [exact rounding_num_order|]. split; [exact abc_sentences_wf|].
  split; [exact abc_idfs_covers|].
  exact (top_sentences_lexicographic (HN := rounding_num_order) abc_query
           abc_sentences abc_idfs 1 abc_sentences_wf abc_idfs_covers).
Defined.

(** ** The full rankings and their ties *)

(** X9. Over any number type whose comparisons order it, for a corpus of
    uniquely named documents and an IDF table covering the query there is
    one full ranking of which [top_files] returns the first [n] names for
    every [n]: it lists every document name exactly once, and of two
    documents the one that comes first in the corpus also comes first in
    the ranking unless the score computed for it is smaller than the score
    computed for the later one (documents whose computed scores tie keep
    the corpus order). *)
Theorem top_files_stable_ranking {N : Float.Num} {HN : Float.NumOrder N}
    query files (idfs : gmap string Float.num) :
  Dict.wf files →
  (∀ t, t ∈ query → is_Some (idfs !! t)) →
  ∃ ranking,
    (∀ n, Float.top_files query files idfs n = Ok (take n ranking))
    ∧ ranking ≡ₚ Dict.keys files
    ∧ NoDup ranking
    ∧ ∀ f1 d1 f2 d2,
        [(f1, d1); (f2, d2)] `sublist_of` files →
        ¬ Float.flt (Float.tfidf query idfs d1) (Float.tfidf query idfs d2) →
        [f1; f2] `sublist_of` ranking.
Proof.
  intros Hwf Hcov.
  exists (sorted_reverse snd Float.flt (Float.tfidf_table query idfs files)).*1.
  assert ((sorted_reverse snd Float.flt
             (Float.tfidf_table query idfs files)).*1
          ≡ₚ Dict.keys files) as Hperm.
  { by rewrite sorted_reverse_perm, float_keys_tfidf_table. }
  split.
  { intros n. unfold Float.top_files.
    by rewrite float_file_tfidf_table by done. }
  split; [exact Hperm|]. split; [by rewrite Hperm|].
  intros f1 d1 f2 d2 Hsub Hge.
  apply (fmap_sublist
           (λ '(filename, document),
              (filename, Float.tfidf query idfs document))) in Hsub.
  apply (sorted_reverse_stable snd Float.flt) in Hsub; [|done].
  by apply (fmap_sublist fst) in Hsub.
Qed.

Lemma top_files_stable_ranking_witness :
  Float.NumOrder rounding_num
  ∧ Dict.wf abc_files
  ∧ (∀ t, t ∈ abc_query → is_Some (abc_idfs !! t))
  ∧ ∃ ranking,
      (∀ n, Float.top_files (N := rounding_num) abc_query abc_files abc_idfs n
            = Ok (take n ranking))
      ∧ ranking ≡ₚ Dict.keys abc_files
      ∧ NoDup ranking
      ∧ ∀ f1 d1 f2 d2,
          [(f1, d1); (f2, d2)] `sublist_of` abc_files →
          ¬ Float.flt (Num := rounding_num)
              (Float.tfidf (N := rounding_num) abc_query abc_idfs d1)
              (Float.tfidf (N := rounding_num) abc_query abc_idfs d2) →
          [f1; f2] `sublist_of` ranking.
Proof.
  pose proof abc_files_wf as Hwf.
  split; [exact rounding_num_order|]. split; [exact Hwf|].
  split; [exact abc_idfs_covers_query|].
  exact (top_files_stable_ranking (HN := rounding_num_order) abc_query abc_files
           abc_idfs Hwf abc_idfs_covers_query).
Defined.

(** X11. Over any number type whose comparisons order it, for a table of
    unique sentences and an IDF table covering the query words in use
    there is one full ranking of which [top_sentences] returns the first
    [n] sentences for every [n]: it lists exactly the sentences that
    contain a query token, each once, and of two such sentences the one
    that comes first in the table also comes first in the ranking unless
    the pair of keys computed for it is smaller than the pair computed for
    the later one. *)
Theorem top_sentences_stable_ranking {N : Float.Num} {HN : Float.NumOrder N}
    query sentences (idfs : gmap string Float.num) :
  Dict.wf sentences →
  Float.covers idfs query sentences →
  ∃ ranking,
    (∀ n, Float.top_sentences query sentences idfs n = Ok (take n ranking))
    ∧ ranking
      ≡ₚ Dict.keys (filter (λ unit, contained query unit.2 ≠ []) sentences)
    ∧ NoDup ranking
    ∧ ∀ s1 ws1 t1 ts1 s2 ws2 t2 ts2,
        [(s1, ws1); (s2, ws2)] `sublist_of` sentences →
        contained query ws1 = t1 :: ts1 →
        contained query ws2 = t2 :: ts2 →
        ¬ Float.tuple_lt
            (Float.primary idfs t1 ts1, Float.density query ws1)
            (Float.primary idfs t2 ts2, Float.density query ws2) →
        [s1; s2] `sublist_of` ranking.
Proof.
  intros Hwf Hcov.
  exists (sorted_reverse snd Float.tuple_lt
            (Float.scored query idfs sentences)).*1.
  assert ((sorted_reverse snd Float.tuple_lt
             (Float.scored query idfs sentences)).*1
          ≡ₚ Dict.keys (filter (λ unit, contained query unit.2 ≠ [])
                          sentences)) as Hperm.
  { rewrite sorted_reverse_perm. by rewrite <- (float_keys_scored query idfs). }
  split.
  { intros n. by apply float_top_sentences_scored. }
  split; [exact Hperm|]. split.
  { rewrite Hperm. unfold Dict.keys.
    eapply sublist_NoDup; [exact Hwf|].
    apply fmap_sublist, sublist_filter. }
  intros s1 ws1 t1 ts1 s2 ws2 t2 ts2 Hsub H1 H2 Hge.
  apply (float_scored_sublist query idfs) in Hsub.
  rewrite !float_scored_cons, H1, H2 in Hsub.
  apply (sorted_reverse_stable snd Float.tuple_lt) in Hsub; [|done].
  by apply (fmap_sublist fst) in Hsub.
Qed.

Lemma top_sentences_stable_ranking_witness :
  Float.NumOrder rounding_num
  ∧ Dict.wf abc_sentences
  ∧ Float.covers (N := rounding_num) abc_idfs abc_query abc_sentences
  ∧ ∃ ranking,
      (∀ n, Float.top_sentences (N := rounding_num) abc_query abc_sentences
              abc_idfs n
            = Ok (take n ranking))
      ∧ ranking
        ≡ₚ Dict.keys (filter (λ unit, contained abc_query unit.2 ≠ [])
                        abc_sentences)
      ∧ NoDup ranking
      ∧ ∀ s1 ws1 t1 ts1 s2 ws2 t2 ts2,
          [(s1, ws1); (s2, ws2)] `sublist_of` abc_sentences →
          contained abc_query ws1 = t1 :: ts1 →
          contained abc_query ws2 = t2 :: ts2 →
          ¬ Float.tuple_lt (N := rounding_num)
              (Float.primary (N := rounding_num) abc_idfs t1 ts1,
               Float.density (N := rounding_num) abc_query ws1)
              (Float.primary (N := rounding_num) abc_idfs t2 ts2,
               Float.density (N := rounding_num) abc_query ws2) →
          [s1; s2] `sublist_of` ranking.
Proof.
  split; [exact rounding_num_order|]. split; [exact abc_sentences_wf|].
  split; [exact abc_idfs_covers|].
  exact (top_sentences_stable_ranking (HN := rounding_num_order) abc_query
           abc_sentences abc_idfs abc_sentences_wf abc_idfs_covers).
Defined.
